(** * TEA-Tool: the main menu ([tea/ui/menus.py]) and the exposure engine

    The first part embeds [menu_screen] and [help_screen] of
    [tea/ui/menus.py].  Python values are modelled dynamically (the code
    relies on truthiness and on tuple unpacking), every call to a
    collaborator ([tea.ui], [tea.scan], [tea.utils], the terminal) is an
    event, and a run is a function from the list of replies the
    collaborators give, in call order, to a result and a trace.  The
    module [Interrupts] reads the same code with terminal output that can
    be interrupted, for the claims about [KeyboardInterrupt]; the module
    [Engine] holds the exposure engine as the specification describes it. *)

From Stdlib Require Import Ascii.
From stdpp Require Import gmap strings list fin_maps.

Set Warnings "-register-all".

(** ** Python values and exceptions *)

Inductive value : Type :=
| VNone
| VBool (b : bool)
| VStr (s : string)
| VList (items : list value)
| VTuple (items : list value).

(** [bool(v)]: [None], [False], the empty string and empty sequences are
    falsy. *)
Definition truthy (v : value) : bool :=
  match v with
  | VNone => false
  | VBool b => b
  | VStr s => negb (String.eqb s "")
  | VList items | VTuple items =>
      match items with [] => false | _ :: _ => true end
  end.

(** [v is None] *)
Definition is_None (v : value) : bool :=
  match v with VNone => true | _ => false end.

Inductive exn : Type :=
| KeyboardInterrupt
| EOFError
| ValueError
| TypeError
| AttributeError
| OtherError (name : string).

Definition is_KeyboardInterrupt (e : exn) : bool :=
  match e with KeyboardInterrupt => true | _ => false end.

(** ** Collaborators

    [call]s hand control to a collaborator, which answers with a [reply];
    [output]s write to the terminal through [rich]'s console. *)

Inductive call : Type :=
| ui_show_welcome_screen
| utils_get_shodan_api
| console_input (prompt : string)
| input (prompt : string)
| ui_discovery_scan_menu
| ui_full_scan_menu
| ui_view_exposure
| scan_discovery (kwargs : list (string * value))
| scan_full (kwargs : list (string * value))
| ui_schedule_scan_menu (kwargs : list (string * value)).

Inductive output : Type :=
| console_print (text : string) (style : option string)
| console_print_Panel (text : list (string * option string))
                      (title border_style title_align : string)
| console_clear.

Inductive reply : Type :=
| Returns (v : value)
| Raises (e : exn).

(** What an observer of a run sees: a call together with its reply, a
    call still waiting for its reply, or terminal output. *)
Inductive event : Type :=
| Ext (c : call) (r : reply)
| Pending (c : call)
| Out (o : output).

(** ** The monad of runs *)

Inductive result (A : Type) : Type :=
| Ok (a : A)
| Raise (e : exn)
| Blocked
| Diverge.
Arguments Ok {A} a.
Arguments Raise {A} e.
Arguments Blocked {A}.
Arguments Diverge {A}.

Record outcome (A : Type) : Type := Outcome {
  res : result A;
  rest : list reply;
  trace : list event
}.
Arguments Outcome {A} res rest trace.
Arguments res {A} o.
Arguments rest {A} o.
Arguments trace {A} o.

Definition M (A : Type) : Type := list reply → outcome A.

(** The events [t] happened before the run [o]. *)
Definition prepend {A} (t : list event) (o : outcome A) : outcome A :=
  Outcome (res o) (rest o) (t ++ trace o).

Definition ret {A} (a : A) : M A := λ rs, Outcome (Ok a) rs [].

Definition raise {A} (e : exn) : M A := λ rs, Outcome (Raise e) rs [].

Definition bind {A B} (m : M A) (k : A → M B) : M B := λ rs,
  let o := m rs in
  match res o with
  | Ok a => prepend (trace o) (k a (rest o))
  | Raise e => Outcome (Raise e) (rest o) (trace o)
  | Blocked => Outcome Blocked (rest o) (trace o)
  | Diverge => Outcome Diverge (rest o) (trace o)
  end.

Declare Scope run_scope.
Delimit Scope run_scope with run.
Notation "'let*' x ':=' m 'in' k" := (bind m (λ x, k))
  (at level 10, x pattern, m at level 100, k at level 200) : run_scope.
Notation "m '>>' k" := (bind m (λ _, k))
  (at level 100, k at level 200, right associativity) : run_scope.
Local Open Scope run_scope.

(** A call takes the next reply; without one the run waits there. *)
Definition do_call (c : call) : M value := λ rs,
  match rs with
  | [] => Outcome Blocked [] [Pending c]
  | Returns v :: rs' => Outcome (Ok v) rs' [Ext c (Returns v)]
  | Raises e :: rs' => Outcome (Raise e) rs' [Ext c (Raises e)]
  end.

(** Output is written and takes no reply: these are the runs in which no
    output raises.  Output that raises is read in the module [Interrupts]. *)
Definition emit (o : output) : M unit := λ rs, Outcome (Ok tt) rs [Out o].

(** [try: body  except <exc>: handler] *)
Definition try_except {A} (body : M A) (exc : exn → bool) (handler : M A)
    : M A := λ rs,
  let o := body rs in
  match res o with
  | Raise e =>
      if exc e then prepend (trace o) (handler (rest o)) else o
  | _ => o
  end.

(** [while True: body].  The body answers [None] to go round again and
    [Some r] to leave the loop with [r].  Every turn of a loop of this
    program takes at least one reply, so one more turn than there are
    replies is enough; a loop that turns without taking a reply would
    end in [Diverge]. *)
Fixpoint while_fuel {R} (fuel : nat) (body : M (option R)) (rs : list reply)
    : outcome R :=
  match fuel with
  | 0 => Outcome Diverge rs []
  | S fuel' =>
      let o := body rs in
      match res o with
      | Ok None => prepend (trace o) (while_fuel fuel' body (rest o))
      | Ok (Some r) => Outcome (Ok r) (rest o) (trace o)
      | Raise e => Outcome (Raise e) (rest o) (trace o)
      | Blocked => Outcome Blocked (rest o) (trace o)
      | Diverge => Outcome Diverge (rest o) (trace o)
      end
  end.

Definition while_True {R} (body : M (option R)) : M R := λ rs,
  while_fuel (S (length rs)) body rs.

(** [a, b, c = v]: iteration over the right-hand side. *)
Definition iter_items (v : value) : option (list value) :=
  match v with
  | VTuple items | VList items => Some items
  | VStr s => Some ((λ c, VStr (String c "")) <$> String.list_ascii_of_string s)
  | VNone | VBool _ => None
  end.

Definition unpack3 (v : value) : M (value * value * value) :=
  match iter_items v with
  | None => raise TypeError
  | Some [a; b; c] => ret (a, b, c)
  | Some _ => raise ValueError
  end.

Definition unpack4 (v : value) : M (value * value * value * value) :=
  match iter_items v with
  | None => raise TypeError
  | Some [a; b; c; d] => ret (a, b, c, d)
  | Some _ => raise ValueError
  end.

(** ** [str.strip] and [str.lower]

    A character of a [string] is read as one code point below 256.  There
    Python's whitespace is 9-13, 28-32, 133 (next line) and 160 (no-break
    space), and the upper-case letters are A-Z and the Latin-1 letters
    192-214 and 216-222, each 32 below its lower-case letter. *)

Definition is_whitespace (c : ascii) : bool :=
  let n := nat_of_ascii c in
  ((9 <=? n)%nat && (n <=? 13)%nat) || ((28 <=? n)%nat && (n <=? 32)%nat)
  || (n =? 133)%nat || (n =? 160)%nat.

Fixpoint lstrip (s : string) : string :=
  match s with
  | EmptyString => EmptyString
  | String c s' => if is_whitespace c then lstrip s' else s
  end.

Fixpoint rstrip (s : string) : string :=
  match s with
  | EmptyString => EmptyString
  | String c s' =>
      match rstrip s' with
      | EmptyString => if is_whitespace c then EmptyString else String c EmptyString
      | r => String c r
      end
  end.

Definition strip (s : string) : string := rstrip (lstrip s).

Definition lower_ascii (c : ascii) : ascii :=
  let n := nat_of_ascii c in
  if ((65 <=? n)%nat && (n <=? 90)%nat)
     || ((192 <=? n)%nat && (n <=? 214)%nat)
     || ((216 <=? n)%nat && (n <=? 222)%nat)
  then ascii_of_nat (n + 32) else c.

Fixpoint lower (s : string) : string :=
  match s with
  | EmptyString => EmptyString
  | String c s' => String (lower_ascii c) (lower s')
  end.

(** ** [rich.prompt.Prompt.ask]

    The library's loop: read a line, give the default for an empty line,
    otherwise validate the stripped line against the choices, report an
    invalid one and ask again. *)

Fixpoint list_index (x : string) (l : list string) : option nat :=
  match l with
  | [] => None
  | y :: l' => if String.eqb y x then Some 0 else S <$> list_index x l'
  end.

Definition check_choice (choices : list string) (case_sensitive : bool)
    (value : string) : bool :=
  if case_sensitive then bool_decide (strip value ∈ choices)
  else bool_decide (lower (strip value) ∈ lower <$> choices).

(** [None] stands for [InvalidResponse]. *)
Definition process_response (choices : option (list string))
    (case_sensitive : bool) (value : string) : option string :=
  let value := strip value in
  match choices with
  | None => Some value
  | Some cs =>
      if check_choice cs case_sensitive value then
        if case_sensitive then Some value
        else i ← list_index (lower value) (lower <$> cs); cs !! i
      else None
  end.

Definition illegal_choice_message : string :=
  "[prompt.invalid.choice]Please select one of the available options".

(** The answer one round of the prompt gives to a typed line, if any. *)
Definition accept (choices : option (list string)) (case_sensitive : bool)
    (default : option string) (value : string) : option string :=
  match default with
  | Some d =>
      if String.eqb value "" then Some d
      else process_response choices case_sensitive value
  | None => process_response choices case_sensitive value
  end.

Definition ask_turn (prompt : string) (choices : option (list string))
    (case_sensitive : bool) (default : option string) : M (option string) :=
  let* v := do_call (console_input prompt) in
  match v with
  | VStr value =>
      match accept choices case_sensitive default value with
      | Some r => ret (Some r)
      | None => emit (console_print illegal_choice_message None) >> ret None
      end
  | _ => raise AttributeError
  end.

Definition Prompt_ask (prompt : string) (choices : option (list string))
    (case_sensitive : bool) (default : option string) : M string :=
  while_True (ask_turn prompt choices case_sensitive default).

(** ** [help_screen] *)

Local Open Scope string_scope.

Definition nl : string := String (ascii_of_nat 10) EmptyString.

Definition help_text : list (string * option string) :=
  [ (nl ++ "Key Functionalities:" ++ nl ++ nl, Some "bold green");
    ("   Discovery Scan", Some "cyan");
    (" (d)" ++ nl, Some "green");
    ("Uses DNS records and SHODAN search to identify ASNs, hostnames and related IPs." ++ nl
     ++ "Requires a domain name to start the scan. "
     ++ "Results can be populated even more by providing country codes," ++ nl
     ++ "but this may introduce unwanted hosts in the exposure." ++ nl ++ nl, None);
    ("   Full Scan", Some "cyan");
    (" (f)" ++ nl, Some "green");
    ("Extends the Discovery Scan by retrieving detailed port, HTTP, and vulnerability data." ++ nl
     ++ "Can also use saved exposure received from a prior Discovery Scan." ++ nl ++ nl, None);
    ("   View Exposure", Some "cyan");
    (" (v)" ++ nl, Some "green");
    ("Displays the exposure in a summary or detailed format." ++ nl
     ++ "Requires exposure to be populated and saved in the database." ++ nl ++ nl, None);
    ("   Scheduled Scan " ++ nl, Some "cyan");
    ("Run the TEA-Tool on a schedule (e.g. cron) "
     ++ "by passing a configuration file as argument." ++ nl
     ++ "After each scan, you will be prompted to save your scan configuration to a file." ++ nl
     ++ "Pass this file as an argument for scheduled, silent CLI execution." ++ nl
     ++ "Usage: python tea_tool.py [-s or --schedule] /path/to/schedule.json" ++ nl
     ++ "The configuration file defines the scan type and options to use." ++ nl ++ nl, None);
    (nl ++ "Input Options:" ++ nl, Some "bold green");
    ("Both the Full Scan and the Discovery Scan require the same input options." ++ nl
     ++ "The only variation is that the Full Scan can use existing exposure "
     ++ "from a previous Discovery or Full Scan." ++ nl ++ nl, None);
    ("   Domain Name (Required)" ++ nl, Some "cyan");
    ("The domain name to scan. E.g. example.com" ++ nl ++ nl, None);
    ("   Country Code(s) (Optional)" ++ nl, Some "cyan");
    ("A list of country codes to filter results (e.g. NO, DK, US, CA)." ++ nl
     ++ "Filters a search for just the domain name (i.e. example) by given country code(s)."
     ++ nl ++ nl, None);
    ("   Save to Database (Optional)" ++ nl, Some "cyan");
    ("Save the results to a database for later retrieval or use in a Full Scan." ++ nl ++ nl,
     None);
    (nl ++ "Additional Information:" ++ nl ++ nl, Some "bold green");
    ("  - Scans do not interact directly with the targets," ++ nl
     ++ "data is collected from SHODAN or other public sources." ++ nl ++ nl
     ++ "  - A paid SHODAN API key will retrieve more detailed information." ++ nl
     ++ "Set the key in the .evn file with SHODAN_API_KEY=<key> or "
     ++ "during startup for temporary use." ++ nl ++ nl
     ++ "  - A paid SHODAN API key enables the tool to retrieve more hosts during discovery."
     ++ nl ++ nl
     ++ "  - A paid SHODAN API key IS NOT required for the tool to function," ++ nl
     ++ "but it is recommended for the full intended functionality." ++ nl ++ nl
     ++ "  - Will use the HackerTarget API to retrieve discovery if the "
     ++ "SHODAN API key is non-paid." ++ nl ++ nl
     ++ "  - Custom paths for the SQLite database and log file can" ++ nl
     ++ "be set in the .env file with EXPOSURE_DB_PATH=<path> and LOG_PATH=<path>." ++ nl,
     None) ].

Local Close Scope string_scope.

Definition help_prompt : string :=
  "[green]TEA-Tool[/]> [cyan]Help[/]> Press any key to return to the main menu".

(** The prompt of the help screen has no choices and no default; an
    interrupt there is caught by [help_screen] itself. *)
Definition help_screen : M value :=
  emit console_clear >>
  emit (console_print_Panel help_text "Help" "cyan bold" "left") >>
  try_except
    (Prompt_ask help_prompt None true None >> ret VNone)
    is_KeyboardInterrupt
    (ret VNone).

(** ** [menu_screen] *)

Definition menu_prompt : string := "[green]TEA-Tool[/]> [cyan]Menu Selection[/]".

Definition api_key_warning : string :=
  "[green]TEA-Tool[/]> [cyan]Menu Selection[/] [yellow]SHODAN API Key not found![/]".

Definition goodbye : output :=
  console_print (nl +:+ "Exiting TEA-Tool. Goodbye World!") (Some "bold cyan").

Definition commands : list string := ["v"; "h"; "q"; "f"; "d"].

(** How a turn of the menu loop ends other than by going round again. *)
Inductive exit : Type :=
| Break
| Return (v : value).

Definition discovery_scan : M (option exit) :=
  let* r := do_call ui_discovery_scan_menu in
  let* (domain, country_codes, save) := unpack3 r in
  emit console_clear >>
  if negb (truthy domain) then ret (Some Break)
  else
    do_call (scan_discovery
      [("domain", domain); ("country_codes", country_codes); ("save", save)]) >>
    do_call (ui_schedule_scan_menu
      [("scan_type", VStr "discovery"); ("domain", domain);
       ("country_codes", country_codes); ("save", save)]) >>
    do_call (input "Press Enter to continue...") >>
    do_call ui_view_exposure >>
    ret (Some Break).

(** [while ui.view_exposure(): continue] *)
Definition view_exposure_loop : M unit :=
  while_True (
    let* again := do_call ui_view_exposure in
    if truthy again then ret None else ret (Some tt)).

Definition full_scan : M (option exit) :=
  let* r := do_call ui_full_scan_menu in
  let* (use_existing, domain, country_codes, save) := unpack4 r in
  emit console_clear >>
  let* scanned :=
    if truthy domain then
      do_call (scan_full
        [("domain", domain); ("country_codes", country_codes); ("save", save)]) >>
      ret true
    else if truthy use_existing then
      do_call (scan_full [("use_existing", use_existing); ("save", save)]) >>
      ret true
    else ret false in
  if negb scanned then ret (Some Break)
  else
    do_call (ui_schedule_scan_menu
      [("scan_type", VStr "full");
       ("domain", if negb (truthy use_existing) then domain else VNone);
       ("country_codes",
          if negb (truthy use_existing) then country_codes else VList []);
       ("use_existing", use_existing);
       ("save", save)]) >>
    do_call (input "Press Enter to continue...") >>
    do_call ui_view_exposure >>
    ret (Some Break).

(** The [match user_input] statement; an input that matches no case falls
    out of the statement and the loop goes round again. *)
Definition match_user_input (user_input : string) : M (option exit) :=
  if String.eqb user_input "h" then help_screen >> ret (Some Break)
  else if String.eqb user_input "d" then discovery_scan
  else if String.eqb user_input "v" then view_exposure_loop >> ret (Some Break)
  else if String.eqb user_input "f" then full_scan
  else if String.eqb user_input "q" then
    emit goodbye >> ret (Some (Return (VBool false)))
  else ret None.

(** [try: ...  except KeyboardInterrupt: print goodbye; return False] *)
Definition guard (body : M (option exit)) : M (option exit) :=
  try_except body is_KeyboardInterrupt
    (emit goodbye >> ret (Some (Return (VBool false)))).

Definition menu_turn : M (option exit) :=
  guard
    (let* user_input := Prompt_ask menu_prompt (Some commands) false (Some "h") in
     match_user_input user_input).

(** The [while True] loop and the [return True] after it. *)
Definition menu_loop : M value :=
  let* e := while_True menu_turn in
  match e with
  | Break => ret (VBool true)
  | Return v => ret v
  end.

Definition menu_screen : M value :=
  do_call ui_show_welcome_screen >>
  let* api := do_call utils_get_shodan_api in
  (if is_None api then emit (console_print api_key_warning None) else ret tt) >>
  menu_loop.

Definition line (s : string) : reply := Returns (VStr s).

(** ** Observations on traces *)

(** The command the menu prompt makes of a typed line, if it accepts it. *)
Definition menu_choice (typed : string) : option string :=
  accept (Some commands) false (Some "h") typed.

Definition is_menu_prompt (c : call) : bool :=
  match c with console_input p => String.eqb p menu_prompt | _ => false end.

Definition is_help_prompt (c : call) : bool :=
  match c with console_input p => String.eqb p help_prompt | _ => false end.

Definition is_scan_discovery (c : call) : bool :=
  match c with scan_discovery _ => true | _ => false end.

Definition is_scan_full (c : call) : bool :=
  match c with scan_full _ => true | _ => false end.

Definition is_schedule_scan_menu (c : call) : bool :=
  match c with ui_schedule_scan_menu _ => true | _ => false end.

Definition is_view_exposure (c : call) : bool :=
  match c with ui_view_exposure => true | _ => false end.

(** Some call satisfying [p] was made. *)
Definition calls (p : call → bool) (t : list event) : bool :=
  existsb (λ e, match e with Ext c _ | Pending c => p c | Out _ => false end) t.

(** A [KeyboardInterrupt] was raised at a call other than the prompt of the
    help screen. *)
Definition interrupts (e : event) : bool :=
  match e with
  | Ext c (Raises KeyboardInterrupt) => negb (is_help_prompt c)
  | _ => false
  end.

Definition interrupted (t : list event) : bool := existsb interrupts t.

(** The menu prompt was answered with a line it takes for [cmd]. *)
Definition selects (cmd : string) (e : event) : bool :=
  match e with
  | Ext c (Returns (VStr typed)) =>
      is_menu_prompt c && bool_decide (menu_choice typed = Some cmd)
  | _ => false
  end.

Definition selected (cmd : string) (t : list event) : bool :=
  existsb (selects cmd) t.

(** The first event of a run that starts by calling [c]. *)
Definition first_call (c : call) (rs : list reply) : event :=
  match rs with
  | [] => Pending c
  | r :: _ => Ext c r
  end.

(** The events of the menu prompt asking again after each line of [bad]. *)
Definition reprompts (bad : list string) : list event :=
  bad ≫= λ typed,
    [Ext (console_input menu_prompt) (line typed);
     Out (console_print illegal_choice_message None)].

(** The events before the menu loop. *)
Definition prelude (welcome api : value) : list event :=
  [Ext ui_show_welcome_screen (Returns welcome);
   Ext utils_get_shodan_api (Returns api)]
  ++ (if is_None api then [Out (console_print api_key_warning None)] else []).

(** [return] and the fall out of the loop, on the outcome of a turn. *)
Definition finish (o : outcome (option exit)) : outcome value :=
  Outcome
    (match res o with
     | Ok (Some Break) => Ok (VBool true)
     | Ok (Some (Return v)) => Ok v
     | Ok None => Diverge
     | Raise e => Raise e
     | Blocked => Blocked
     | Diverge => Diverge
     end)
    (rest o) (trace o).

(** ** Invariants of runs *)

(** A string that does not begin with whitespace. *)
Definition starts_solid (s : string) : Prop :=
  match s with
  | EmptyString => True
  | String c _ => is_whitespace c = false
  end.

(** [quiet m]: a [KeyboardInterrupt] leaves [m] exactly when one was raised
    at a call other than the help prompt, [m] never asks the menu prompt,
    and [m] does not diverge.  [breaks m]: when [m] completes, it does so by
    [break]. *)
Definition quiet {A} (m : M A) : Prop :=
  ∀ rs,
    (res (m rs) = Raise KeyboardInterrupt ↔ interrupted (trace (m rs)) = true)
    ∧ selected "q" (trace (m rs)) = false
    ∧ res (m rs) ≠ Diverge.

Definition breaks (m : M (option exit)) : Prop :=
  ∀ rs x, res (m rs) = Ok x → x = Some Break.

(** What a turn of the menu loop guarantees: it answers [return False]
    exactly when q was selected or an interrupt was raised outside the help
    prompt, it otherwise ends by [break], and neither an interrupt nor a
    divergence leaves it. *)
Definition turn_inv (o : outcome (option exit)) : Prop :=
  (res o = Ok (Some (Return (VBool false)))
   ↔ selected "q" (trace o) || interrupted (trace o) = true)
  ∧ (∀ x, res o = Ok x → x = Some Break ∨ x = Some (Return (VBool false)))
  ∧ res o ≠ Raise KeyboardInterrupt
  ∧ res o ≠ Diverge.

(** ** The shape of traces *)

#[global] Instance output_eq_dec : EqDecision output.
Proof. solve_decision. Defined.

(** An event after which a run goes on: a call that returned, an interrupt
    at the prompt of the help screen (which [help_screen] catches), or
    output other than the goodbye message. *)
Definition tame (e : event) : bool :=
  match e with
  | Ext _ (Returns _) => true
  | Ext c (Raises x) => is_help_prompt c && is_KeyboardInterrupt x
  | Pending _ => false
  | Out o => negb (bool_decide (o = goodbye))
  end.

(** The trace of a piece of code run inside a turn: tame events, closed by
    the call that raised when a collaborator raised, and by the pending
    call when the replies ran out. *)
Definition settled {A} (o : outcome A) : Prop :=
  match res o with
  | Ok _ => forallb tame (trace o) = true
  | Raise e =>
      forallb tame (trace o) = true
      ∨ ∃ t c, trace o = t ++ [Ext c (Raises e)] ∧ forallb tame t = true
  | Blocked =>
      ∃ t c, trace o = t ++ [Pending c] ∧ forallb tame t = true ∧ rest o = []
  | Diverge => False
  end.

Definition steady {A} (m : M A) : Prop := ∀ rs, settled (m rs).

(** The trace of [menu_screen]: as above, and when [False] is returned the
    trace is closed by the goodbye message, which follows the interrupt
    when there was one. *)
Definition menu_settled (o : outcome value) : Prop :=
  match res o with
  | Ok v =>
      (v = VBool true ∧ forallb tame (trace o) = true)
      ∨ (v = VBool false
         ∧ ∃ t, forallb tame t = true
                ∧ (trace o = t ++ [Out goodbye]
                   ∨ ∃ c, trace o
                          = t ++ [Ext c (Raises KeyboardInterrupt); Out goodbye]))
  | Raise e =>
      forallb tame (trace o) = true
      ∨ ∃ t c, trace o = t ++ [Ext c (Raises e)] ∧ forallb tame t = true
  | Blocked =>
      ∃ t c, trace o = t ++ [Pending c] ∧ forallb tame t = true ∧ rest o = []
  | Diverge => False
  end.

(** An exception the menu raises by itself, on a reply it cannot use: a
    prompt answer that is no string, a menu result that cannot be unpacked. *)
Definition code_raised (e : exn) : Prop :=
  e = AttributeError ∨ e = TypeError ∨ e = ValueError.

(** The goodbye message was printed. *)
Definition says_goodbye (t : list event) : bool :=
  existsb (λ e, match e with
                | Out o => bool_decide (o = goodbye)
                | _ => false
                end) t.

(* ------------------------------------------------------------------ *)
(** * The exposure engine

    [menu_screen] hands the scans to [tea.scan], whose code and data model
    are not part of [tea/ui/menus.py].  The definitions of this module
    follow the specification of the aggregation engine and of the exposure
    store: records are kept in maps from their identity key, so that a key
    has at most one record. *)

Module Engine.

(** Modelled from the spec: the passive sources of fragments, which are
    absent from the sources at hand; the documented merge order ranks DNS
    first, then SHODAN, then HackerTarget, then the detail-enrichment
    sources. *)
Inductive Source : Type := DNS | SHODAN | HackerTarget | Detail.

(** Modelled from the spec: the stable source priority of the merge order
    (the sources are absent from the code at hand). *)
Definition priority (s : Source) : nat :=
  match s with DNS => 0 | SHODAN => 1 | HackerTarget => 2 | Detail => 3 end.

#[global] Instance Source_eq_dec : EqDecision Source.
Proof. solve_decision. Defined.

#[global] Instance Source_countable : Countable Source.
Proof.
  refine (inj_countable' priority
            (λ n, match n with 0 => DNS | 1 => SHODAN | 2 => HackerTarget | _ => Detail end)
            _).
  by intros [].
Defined.

(** Modelled from the spec: the scan mode an exposure was last updated by
    (the data model is absent from the code at hand). *)
Inductive ScanMode : Type := Discovery | Full.

(** Modelled from the spec: an ASN record, keyed by its number; name and
    registered country are scalars, unresolved when [None]. *)
Record ASN : Type := {
  asn_name : option string;
  asn_country : option string
}.

(** Modelled from the spec: a host record, keyed by its canonical hostname;
    a weak ASN reference and the set of resolved IP addresses. *)
Record Host : Type := {
  host_asn : option N;
  host_ips : gset string
}.

(** Modelled from the spec: a port record, keyed by (number, protocol)
    within its IP; banner and HTTP metadata are scalars. *)
Record Port : Type := {
  banner : option string;
  http : option string
}.

(** Modelled from the spec: a vulnerability record, keyed by its identifier
    scoped to the port (number, protocol) it was found on; the port is
    referenced by key, not owned. *)
Record Vulnerability : Type := {
  severity : option string
}.

(** Modelled from the spec: an IP record, keyed by its canonical address: a
    weak ASN reference, the open ports, the vulnerabilities found on them
    and the source tags. *)
Record IP : Type := {
  ip_asn : option N;
  ip_ports : gmap (N * string) Port;
  ip_vulns : gmap (N * string * string) Vulnerability;
  ip_tags : gset Source
}.

(** Modelled from the spec: the aggregate root for one domain. *)
Record Exposure : Type := {
  domain : string;
  asns : gmap N ASN;
  hosts : gmap string Host;
  ips : gmap string IP;
  created : option N;
  updated : option N;
  mode : option ScanMode
}.

(** Modelled from the spec: what the normalizer makes of one source
    response, tagged with its source. *)
Record Fragment : Type := {
  source : Source;
  f_asns : gmap N ASN;
  f_hosts : gmap string Host;
  f_ips : gmap string IP
}.

(** Modelled from the spec: union-merge of a scalar field, the
    later-observed non-null value wins. *)
Definition merge_scalar {A} (old new : option A) : option A :=
  match new with
  | Some _ => new
  | None => old
  end.

(** Modelled from the spec: union-merge of two keyed sets of records, a key
    present on both sides keeps one record, the merge of the two. *)
Definition merge_keyed `{Countable K} {A} (f : A → A → A)
    (old new : gmap K A) : gmap K A :=
  union_with (λ a b, Some (f a b)) old new.

(** Modelled from the spec: union-merge of two ASN records with one key. *)
Definition merge_ASN (old new : ASN) : ASN :=
  {| asn_name := merge_scalar (asn_name old) (asn_name new);
     asn_country := merge_scalar (asn_country old) (asn_country new) |}.

(** Modelled from the spec: union-merge of two host records with one key,
    the set-valued field is unioned. *)
Definition merge_Host (old new : Host) : Host :=
  {| host_asn := merge_scalar (host_asn old) (host_asn new);
     host_ips := host_ips old ∪ host_ips new |}.

(** Modelled from the spec: union-merge of two port records with one key. *)
Definition merge_Port (old new : Port) : Port :=
  {| banner := merge_scalar (banner old) (banner new);
     http := merge_scalar (http old) (http new) |}.

(** Modelled from the spec: union-merge of two vulnerability records with
    one key. *)
Definition merge_Vulnerability (old new : Vulnerability) : Vulnerability :=
  {| severity := merge_scalar (severity old) (severity new) |}.

(** Modelled from the spec: union-merge of two IP records with one key. *)
Definition merge_IP (old new : IP) : IP :=
  {| ip_asn := merge_scalar (ip_asn old) (ip_asn new);
     ip_ports := merge_keyed merge_Port (ip_ports old) (ip_ports new);
     ip_vulns := merge_keyed merge_Vulnerability (ip_vulns old) (ip_vulns new);
     ip_tags := ip_tags old ∪ ip_tags new |}.

(** Modelled from the spec: step 4 of [aggregate] for one fragment, the
    identity-key union-merge of the fragment into the working exposure. *)
Definition merge_fragment (working : Exposure) (F : Fragment) : Exposure :=
  {| domain := domain working;
     asns := merge_keyed merge_ASN (asns working) (f_asns F);
     hosts := merge_keyed merge_Host (hosts working) (f_hosts F);
     ips := merge_keyed merge_IP (ips working) (f_ips F);
     created := created working;
     updated := updated working;
     mode := mode working |}.

(** Modelled from the spec: the merge order of step 4, "sort by a stable
    source priority (DNS, then SHODAN, then HackerTarget, then
    detail-enrichment sources), and within a source, by the order the
    normalizer emitted records"; a fragment goes behind those of its own
    priority that arrived before it. *)
Fixpoint insert_by_priority (F : Fragment) (sorted : list Fragment)
    : list Fragment :=
  match sorted with
  | [] => [F]
  | G :: sorted' =>
      if (priority (source G) <=? priority (source F))%nat
      then G :: insert_by_priority F sorted'
      else F :: sorted
  end.

(** Modelled from the spec: the fragments in merge order. *)
Definition by_priority (arrived : list Fragment) : list Fragment :=
  foldl (λ sorted F, insert_by_priority F sorted) [] arrived.

(** Modelled from the spec: the core of [aggregate], all fragments merged
    into the working exposure in merge order.  A full scan that reuses an
    exposure starts from it; the fragments are what the sources answered. *)
Definition aggregate (working : Exposure) (arrived : list Fragment) : Exposure :=
  foldl merge_fragment working (by_priority arrived).

(** Modelled from the spec: the union-merge of an exposure into the stored
    one for its domain, as [upsertMerge] applies it. *)
Definition merge_exposure (old new : Exposure) : Exposure :=
  {| domain := domain old;
     asns := merge_keyed merge_ASN (asns old) (asns new);
     hosts := merge_keyed merge_Host (hosts old) (hosts new);
     ips := merge_keyed merge_IP (ips old) (ips new);
     created := merge_scalar (created old) (created new);
     updated := merge_scalar (updated old) (updated new);
     mode := merge_scalar (mode old) (mode new) |}.

(** Modelled from the spec: [get] of the exposure store, one exposure per
    domain. *)
Definition get (d : string) (store : gmap string Exposure) : option Exposure :=
  store !! d.

(** Modelled from the spec: [upsertMerge] of the exposure store. *)
Definition upsertMerge (E : Exposure) (store : gmap string Exposure)
    : gmap string Exposure :=
  match store !! domain E with
  | Some old => <[domain E := merge_exposure old E]> store
  | None => <[domain E := E]> store
  end.

(** Modelled from the spec: an asset "only gains attributes": set-valued
    fields and keyed sets grow, a resolved scalar stays resolved. *)
Definition Host_le (x y : Host) : Prop :=
  (is_Some (host_asn x) → is_Some (host_asn y))
  ∧ host_ips x ⊆ host_ips y.

(** Modelled from the spec: an IP "only gains attributes". *)
Definition IP_le (x y : IP) : Prop :=
  (is_Some (ip_asn x) → is_Some (ip_asn y))
  ∧ dom (ip_ports x) ⊆ dom (ip_ports y)
  ∧ dom (ip_vulns x) ⊆ dom (ip_vulns y)
  ∧ ip_tags x ⊆ ip_tags y.

(** Modelled from the spec: no deletion between two states of an exposure,
    every ASN, host and IP of the first is in the second and has only
    gained attributes. *)
Definition Exposure_le (E E' : Exposure) : Prop :=
  domain E = domain E'
  ∧ dom (asns E) ⊆ dom (asns E')
  ∧ (∀ h x, hosts E !! h = Some x → ∃ x', hosts E' !! h = Some x' ∧ Host_le x x')
  ∧ (∀ a x, ips E !! a = Some x → ∃ x', ips E' !! a = Some x' ∧ IP_le x x').














(** The example of the specification: a discovery scan of example.com
    found the host www.example.com at 93.184.216.34. *)
Definition example_ip : IP :=
  {| ip_asn := None; ip_ports := ∅; ip_vulns := ∅; ip_tags := {[DNS]} |}.

Definition example_discovered : Exposure :=
  {| domain := "example.com";
     asns := ∅;
     hosts := {["www.example.com" :=
                 {| host_asn := None; host_ips := {["93.184.216.34"]} |}]};
     ips := {["93.184.216.34" := example_ip]};
     created := Some 1%N;
     updated := Some 1%N;
     mode := Some Discovery |}.

(** A detail answer for that address: port 443 over tcp with the given
    banner, and CVE-2021-1234 on it. *)
Definition example_detail (server : string) : Fragment :=
  {| source := Detail;
     f_asns := ∅;
     f_hosts := ∅;
     f_ips := {["93.184.216.34" :=
                 {| ip_asn := None;
                    ip_ports := {[(443%N, "tcp") :=
                                   {| banner := Some server; http := None |}]};
                    ip_vulns := {[(443%N, "tcp", "CVE-2021-1234") :=
                                   {| severity := Some "high" |}]};
                    ip_tags := {[Detail]} |}]} |}.

(** A SHODAN answer that names the ASN of the host. *)
Definition example_shodan : Fragment :=
  {| source := SHODAN;
     f_asns := {[15133%N := {| asn_name := Some "EDGECAST";
                               asn_country := Some "US" |}]};
     f_hosts := {["www.example.com" :=
                   {| host_asn := Some 15133%N; host_ips := ∅ |}]};
     f_ips := ∅ |}.


End Engine.

(* ------------------------------------------------------------------ *)
(** * Interrupted output

    [console.print] and [console.clear] are calls too: Ctrl-C while the
    terminal is written raises [KeyboardInterrupt] inside them.  The module
    reads the same code with every step, a call or an output, taking the
    next reply; the reply of an output that was written is its return
    value, and an exception is raised where the program is in a call or in
    an output.  The first part reads the code with every output written. *)

Module Interrupts.

Inductive action : Type :=
| Call (c : call)
| Print (o : output).

(** A step of a run: an action with its reply, or the action the run waits
    at when the replies ran out. *)
Inductive step : Type :=
| Did (a : action) (r : reply)
| Awaits (a : action).

Record outcome (A : Type) : Type := Outcome {
  res : result A;
  rest : list reply;
  trace : list step
}.
Arguments Outcome {A} res rest trace.
Arguments res {A} o.
Arguments rest {A} o.
Arguments trace {A} o.

Definition M (A : Type) : Type := list reply → outcome A.

Definition prepend {A} (t : list step) (o : outcome A) : outcome A :=
  Outcome (res o) (rest o) (t ++ trace o).

Definition ret {A} (a : A) : M A := λ rs, Outcome (Ok a) rs [].

Definition raise {A} (e : exn) : M A := λ rs, Outcome (Raise e) rs [].

Definition bind {A B} (m : M A) (k : A → M B) : M B := λ rs,
  let o := m rs in
  match res o with
  | Ok a => prepend (trace o) (k a (rest o))
  | Raise e => Outcome (Raise e) (rest o) (trace o)
  | Blocked => Outcome Blocked (rest o) (trace o)
  | Diverge => Outcome Diverge (rest o) (trace o)
  end.

Declare Scope live_scope.
Delimit Scope live_scope with live.
Notation "'let*' x ':=' m 'in' k" := (bind m (λ x, k))
  (at level 10, x pattern, m at level 100, k at level 200) : live_scope.
Notation "m '>>' k" := (bind m (λ _, k))
  (at level 100, k at level 200, right associativity) : live_scope.
Local Open Scope live_scope.

(** An action takes the next reply; without one the run waits there. *)
Definition perform (a : action) : M value := λ rs,
  match rs with
  | [] => Outcome Blocked [] [Awaits a]
  | Returns v :: rs' => Outcome (Ok v) rs' [Did a (Returns v)]
  | Raises e :: rs' => Outcome (Raise e) rs' [Did a (Raises e)]
  end.

Definition do_call (c : call) : M value := perform (Call c).

(** The return value of an output is not used. *)
Definition emit (o : output) : M unit := perform (Print o) >> ret tt.

(** [try: body  except <exc>: handler] *)
Definition try_except {A} (body : M A) (exc : exn → bool) (handler : M A)
    : M A := λ rs,
  let o := body rs in
  match res o with
  | Raise e =>
      if exc e then prepend (trace o) (handler (rest o)) else o
  | _ => o
  end.

(** [while True: body], with one more turn than there are replies: every
    turn of a loop of this program takes at least one. *)
Fixpoint while_fuel {R} (fuel : nat) (body : M (option R)) (rs : list reply)
    : outcome R :=
  match fuel with
  | 0 => Outcome Diverge rs []
  | S fuel' =>
      let o := body rs in
      match res o with
      | Ok None => prepend (trace o) (while_fuel fuel' body (rest o))
      | Ok (Some r) => Outcome (Ok r) (rest o) (trace o)
      | Raise e => Outcome (Raise e) (rest o) (trace o)
      | Blocked => Outcome Blocked (rest o) (trace o)
      | Diverge => Outcome Diverge (rest o) (trace o)
      end
  end.

Definition while_True {R} (body : M (option R)) : M R := λ rs,
  while_fuel (S (length rs)) body rs.

Definition unpack3 (v : value) : M (value * value * value) :=
  match iter_items v with
  | None => raise TypeError
  | Some [a; b; c] => ret (a, b, c)
  | Some _ => raise ValueError
  end.

Definition unpack4 (v : value) : M (value * value * value * value) :=
  match iter_items v with
  | None => raise TypeError
  | Some [a; b; c; d] => ret (a, b, c, d)
  | Some _ => raise ValueError
  end.

(** [rich.prompt.Prompt.ask] *)
Definition ask_turn (prompt : string) (choices : option (list string))
    (case_sensitive : bool) (default : option string) : M (option string) :=
  let* v := do_call (console_input prompt) in
  match v with
  | VStr value =>
      match accept choices case_sensitive default value with
      | Some r => ret (Some r)
      | None => emit (console_print illegal_choice_message None) >> ret None
      end
  | _ => raise AttributeError
  end.

Definition Prompt_ask (prompt : string) (choices : option (list string))
    (case_sensitive : bool) (default : option string) : M string :=
  while_True (ask_turn prompt choices case_sensitive default).

(** The two outputs of [help_screen] come before its [try]. *)
Definition help_screen : M value :=
  emit console_clear >>
  emit (console_print_Panel help_text "Help" "cyan bold" "left") >>
  try_except
    (Prompt_ask help_prompt None true None >> ret VNone)
    is_KeyboardInterrupt
    (ret VNone).

Definition discovery_scan : M (option exit) :=
  let* r := do_call ui_discovery_scan_menu in
  let* (domain, country_codes, save) := unpack3 r in
  emit console_clear >>
  if negb (truthy domain) then ret (Some Break)
  else
    do_call (scan_discovery
      [("domain", domain); ("country_codes", country_codes); ("save", save)]) >>
    do_call (ui_schedule_scan_menu
      [("scan_type", VStr "discovery"); ("domain", domain);
       ("country_codes", country_codes); ("save", save)]) >>
    do_call (input "Press Enter to continue...") >>
    do_call ui_view_exposure >>
    ret (Some Break).

Definition view_exposure_loop : M unit :=
  while_True (
    let* again := do_call ui_view_exposure in
    if truthy again then ret None else ret (Some tt)).

Definition full_scan : M (option exit) :=
  let* r := do_call ui_full_scan_menu in
  let* (use_existing, domain, country_codes, save) := unpack4 r in
  emit console_clear >>
  let* scanned :=
    if truthy domain then
      do_call (scan_full
        [("domain", domain); ("country_codes", country_codes); ("save", save)]) >>
      ret true
    else if truthy use_existing then
      do_call (scan_full [("use_existing", use_existing); ("save", save)]) >>
      ret true
    else ret false in
  if negb scanned then ret (Some Break)
  else
    do_call (ui_schedule_scan_menu
      [("scan_type", VStr "full");
       ("domain", if negb (truthy use_existing) then domain else VNone);
       ("country_codes",
          if negb (truthy use_existing) then country_codes else VList []);
       ("use_existing", use_existing);
       ("save", save)]) >>
    do_call (input "Press Enter to continue...") >>
    do_call ui_view_exposure >>
    ret (Some Break).

(** The goodbye message of case q is printed inside the [try]. *)
Definition match_user_input (user_input : string) : M (option exit) :=
  if String.eqb user_input "h" then help_screen >> ret (Some Break)
  else if String.eqb user_input "d" then discovery_scan
  else if String.eqb user_input "v" then view_exposure_loop >> ret (Some Break)
  else if String.eqb user_input "f" then full_scan
  else if String.eqb user_input "q" then
    emit goodbye >> ret (Some (Return (VBool false)))
  else ret None.

(** The handler prints the goodbye message itself, outside any [try]. *)
Definition handler : M (option exit) :=
  emit goodbye >> ret (Some (Return (VBool false))).

Definition guard (body : M (option exit)) : M (option exit) :=
  try_except body is_KeyboardInterrupt handler.

Definition menu_turn : M (option exit) :=
  guard
    (let* user_input := Prompt_ask menu_prompt (Some commands) false (Some "h") in
     match_user_input user_input).

Definition menu_loop : M value :=
  let* e := while_True menu_turn in
  match e with
  | Break => ret (VBool true)
  | Return v => ret v
  end.

(** The two calls and the warning before the loop are outside the [try]. *)
Definition menu_screen : M value :=
  do_call ui_show_welcome_screen >>
  let* api := do_call utils_get_shodan_api in
  (if is_None api then emit (console_print api_key_warning None) else ret tt) >>
  menu_loop.

(** ** Observations on steps *)

(** A [KeyboardInterrupt] was raised, by a call other than the prompt of
    the help screen or by an output. *)
Definition interrupts (s : step) : bool :=
  match s with
  | Did (Call c) (Raises KeyboardInterrupt) => negb (is_help_prompt c)
  | Did (Print _) (Raises KeyboardInterrupt) => true
  | _ => false
  end.

Definition interrupted (t : list step) : bool := existsb interrupts t.

(** The menu prompt was answered with a line it takes for [cmd]. *)
Definition selects (cmd : string) (s : step) : bool :=
  match s with
  | Did (Call c) (Returns (VStr typed)) =>
      is_menu_prompt c && bool_decide (menu_choice typed = Some cmd)
  | _ => false
  end.

Definition selected (cmd : string) (t : list step) : bool :=
  existsb (selects cmd) t.

(** The goodbye message was to be printed. *)
Definition says_goodbye (s : step) : bool :=
  match s with
  | Did (Print o) _ | Awaits (Print o) => bool_decide (o = goodbye)
  | _ => false
  end.

(** The steps before the menu loop, and the replies that make them; the
    warning is printed, and returns [printed], when there is no key. *)
Definition prelude (welcome api printed : value) : list step :=
  [Did (Call ui_show_welcome_screen) (Returns welcome);
   Did (Call utils_get_shodan_api) (Returns api)]
  ++ (if is_None api
      then [Did (Print (console_print api_key_warning None)) (Returns printed)]
      else []).

Definition prelude_replies (welcome api printed : value) : list reply :=
  [Returns welcome; Returns api]
  ++ (if is_None api then [Returns printed] else []).

(** [return] and the fall out of the loop, on the outcome of a turn. *)
Definition finish (o : outcome (option exit)) : outcome value :=
  Outcome
    (match res o with
     | Ok (Some Break) => Ok (VBool true)
     | Ok (Some (Return v)) => Ok v
     | Ok None => Diverge
     | Raise e => Raise e
     | Blocked => Blocked
     | Diverge => Diverge
     end)
    (rest o) (trace o).

(** ** Invariants *)

(** [quiet m]: a [KeyboardInterrupt] leaves [m] exactly when one was raised
    outside the help prompt; [m] neither asks the menu prompt nor prints
    the goodbye message, and does not diverge. *)
Definition quiet {A} (m : M A) : Prop :=
  ∀ rs,
    (res (m rs) = Raise KeyboardInterrupt ↔ interrupted (trace (m rs)) = true)
    ∧ selected "q" (trace (m rs)) = false
    ∧ existsb says_goodbye (trace (m rs)) = false
    ∧ res (m rs) ≠ Diverge.

Definition breaks (m : M (option exit)) : Prop :=
  ∀ rs x, res (m rs) = Ok x → x = Some Break.

(** What a turn of the menu loop guarantees.  It answers [return False]
    exactly when its last step is the goodbye message written, and then q
    was selected or an interrupt was raised; after q or an interrupt the
    goodbye message is the last step, and the turn ends as that output
    does; an interrupt leaves the turn exactly when it is raised by the
    goodbye message of the handler. *)
Definition turn_inv (o : outcome (option exit)) : Prop :=
  let t := trace o in
  (res o = Ok (Some (Return (VBool false)))
   ↔ ∃ v, last t = Some (Did (Print goodbye) (Returns v)))
  ∧ (res o = Ok (Some (Return (VBool false)))
     → selected "q" t = true ∨ interrupted t = true)
  ∧ (selected "q" t = true ∨ interrupted t = true
     → res o = Ok (Some (Return (VBool false)))
       ∨ (∃ e, res o = Raise e ∧ last t = Some (Did (Print goodbye) (Raises e)))
       ∨ (res o = Blocked ∧ last t = Some (Awaits (Print goodbye))))
  ∧ (res o = Raise KeyboardInterrupt
     ↔ ∃ t0, t = t0 ++ [Did (Print goodbye) (Raises KeyboardInterrupt)]
             ∧ interrupted t0 = true)
  ∧ (∀ x, res o = Ok x → x = Some Break ∨ x = Some (Return (VBool false)))
  ∧ res o ≠ Diverge.

(** Whatever a run raises was raised by its last step, a call or an
    output, or by the menu on a reply it cannot use. *)
Definition blameless {A} (o : outcome A) : Prop :=
  ∀ e, res o = Raise e →
       (∃ t a, trace o = t ++ [Did a (Raises e)]) ∨ code_raised e.

Definition guiltless {A} (m : M A) : Prop := ∀ rs, blameless (m rs).

End Interrupts.

(* ------------------------------------------------------------------ *)
(** * Facts about runs *)

Lemma prepend_nil {A} (o : outcome A) : prepend [] o = o.
Proof. by destruct o. Qed.

Lemma prepend_prepend {A} t1 t2 (o : outcome A) :
  prepend t1 (prepend t2 o) = prepend (t1 ++ t2) o.
Proof. unfold prepend; simpl. by rewrite app_assoc. Qed.

Lemma res_prepend {A} t (o : outcome A) : res (prepend t o) = res o.
Proof. done. Qed.

Lemma trace_prepend {A} t (o : outcome A) : trace (prepend t o) = t ++ trace o.
Proof. done. Qed.

Lemma finish_prepend t o : finish (prepend t o) = prepend t (finish o).
Proof. done. Qed.

Lemma bind_run {A B} (m : M A) (k : A → M B) rs a rs' t :
  m rs = Outcome (Ok a) rs' t → bind m k rs = prepend t (k a rs').
Proof. intros H. unfold bind. by rewrite H. Qed.

Lemma while_fuel_S {R} n (body : M (option R)) rs :
  while_fuel (S n) body rs
  = match res (body rs) with
    | Ok None => prepend (trace (body rs)) (while_fuel n body (rest (body rs)))
    | Ok (Some r) => Outcome (Ok r) (rest (body rs)) (trace (body rs))
    | Raise e => Outcome (Raise e) (rest (body rs)) (trace (body rs))
    | Blocked => Outcome Blocked (rest (body rs)) (trace (body rs))
    | Diverge => Outcome Diverge (rest (body rs)) (trace (body rs))
    end.
Proof. reflexivity. Qed.

(** ** The prompt, one typed line at a time *)

Section prompt.
Context (p : string) (ch : option (list string)) (cs : bool) (d : option string).

Lemma ask_blocked :
  Prompt_ask p ch cs d [] = Outcome Blocked [] [Pending (console_input p)].
Proof. reflexivity. Qed.

Lemma ask_raises e rs :
  Prompt_ask p ch cs d (Raises e :: rs)
  = Outcome (Raise e) rs [Ext (console_input p) (Raises e)].
Proof. reflexivity. Qed.

Lemma ask_accept typed r rs :
  accept ch cs d typed = Some r →
  Prompt_ask p ch cs d (line typed :: rs)
  = Outcome (Ok r) rs [Ext (console_input p) (line typed)].
Proof.
  intros H. unfold Prompt_ask, while_True, ask_turn, line. simpl.
  unfold bind at 1. simpl. rewrite H. reflexivity.
Qed.

Lemma ask_reject typed rs :
  accept ch cs d typed = None →
  Prompt_ask p ch cs d (line typed :: rs)
  = prepend [Ext (console_input p) (line typed);
             Out (console_print illegal_choice_message None)]
      (Prompt_ask p ch cs d rs).
Proof.
  intros H. unfold Prompt_ask, while_True. cbn [length]. rewrite while_fuel_S.
  assert (ask_turn p ch cs d (line typed :: rs)
          = Outcome (Ok None) rs
              [Ext (console_input p) (line typed);
               Out (console_print illegal_choice_message None)]) as ->.
  { unfold ask_turn, bind, line; simpl. rewrite H. reflexivity. }
  reflexivity.
Qed.

Lemma ask_not_str v rs :
  (∀ s, v ≠ VStr s) →
  Prompt_ask p ch cs d (Returns v :: rs)
  = Outcome (Raise AttributeError) rs [Ext (console_input p) (Returns v)].
Proof.
  intros H. unfold Prompt_ask, while_True, ask_turn. simpl.
  unfold bind at 1. simpl. destruct v; try done. by destruct (H s).
Qed.
End prompt.

(** ** The menu prompt *)

Lemma list_index_lookup x l i : list_index x l = Some i → is_Some (l !! i).
Proof.
  revert i. induction l as [|y l IH]; intros i; simpl; [done|].
  destruct (String.eqb y x).
  - intros [= <-]. by eexists.
  - destruct (list_index x l) as [j|] eqn:Hj; simpl; [|done].
    intros [= <-]. simpl. by apply IH.
Qed.

Lemma menu_choice_commands typed c : menu_choice typed = Some c → c ∈ commands.
Proof.
  unfold menu_choice, accept.
  destruct (String.eqb typed ""); [intros [= <-]; set_solver|].
  unfold process_response.
  destruct (check_choice commands false (strip typed)); [|done].
  destruct (list_index _ _) as [i|]; simpl; [|done].
  apply list_elem_of_lookup_2.
Qed.

Lemma menu_choice_cases typed c :
  menu_choice typed = Some c →
  c = "h" ∨ c = "d" ∨ c = "v" ∨ c = "f" ∨ c = "q".
Proof.
  intros H%menu_choice_commands. unfold commands in H.
  rewrite !elem_of_cons, elem_of_nil in H.
  destruct H as [->|[->|[->|[->|[->|[]]]]]]; auto 10.
Qed.

Lemma is_menu_prompt_menu : is_menu_prompt (console_input menu_prompt) = true.
Proof. reflexivity. Qed.

Lemma is_help_prompt_menu : is_help_prompt (console_input menu_prompt) = false.
Proof. reflexivity. Qed.

Lemma is_menu_prompt_help : is_menu_prompt (console_input help_prompt) = false.
Proof. reflexivity. Qed.

Lemma is_help_prompt_help : is_help_prompt (console_input help_prompt) = true.
Proof. reflexivity. Qed.

(** ** One turn of the menu loop, by what the user types first *)

Lemma guard_bind_ok {A} (m : M A) k rs a rs' t :
  m rs = Outcome (Ok a) rs' t →
  guard (bind m k) rs = prepend t (guard (k a) rs').
Proof.
  intros H. unfold guard, try_except, bind. rewrite H. simpl.
  destruct (k a rs') as [[x|e| |] rs'' t']; simpl; try done.
  destruct (is_KeyboardInterrupt e); [|done].
  unfold prepend; simpl. by rewrite app_assoc.
Qed.

Lemma guard_bind_prepend {A} (m : M A) k rs rs' t :
  m rs = prepend t (m rs') →
  guard (bind m k) rs = prepend t (guard (bind m k) rs').
Proof.
  intros H. unfold guard, try_except, bind. rewrite H.
  destruct (m rs') as [[a|e| |] rs'' t']; simpl; try done.
  - destruct (k a rs'') as [[x|e| |] rs3 t3]; simpl; try done;
      unfold prepend; simpl; rewrite ?app_assoc; try done.
    destruct (is_KeyboardInterrupt e); unfold prepend; simpl;
      by rewrite ?app_assoc.
  - destruct (is_KeyboardInterrupt e); unfold prepend; simpl;
      by rewrite ?app_assoc.
Qed.

Lemma menu_turn_blocked :
  menu_turn [] = Outcome Blocked [] [Pending (console_input menu_prompt)].
Proof. reflexivity. Qed.

Lemma menu_turn_raises e rs :
  menu_turn (Raises e :: rs)
  = if is_KeyboardInterrupt e
    then Outcome (Ok (Some (Return (VBool false)))) rs
           [Ext (console_input menu_prompt) (Raises e); Out goodbye]
    else Outcome (Raise e) rs [Ext (console_input menu_prompt) (Raises e)].
Proof. by destruct e. Qed.

Lemma menu_turn_not_str v rs :
  (∀ s, v ≠ VStr s) →
  menu_turn (Returns v :: rs)
  = Outcome (Raise AttributeError) rs [Ext (console_input menu_prompt) (Returns v)].
Proof.
  intros H. unfold menu_turn, guard, try_except, bind.
  by rewrite ask_not_str.
Qed.

Lemma menu_turn_reject typed rs :
  menu_choice typed = None →
  menu_turn (line typed :: rs)
  = prepend [Ext (console_input menu_prompt) (line typed);
             Out (console_print illegal_choice_message None)]
      (menu_turn rs).
Proof. intros H. unfold menu_turn. apply guard_bind_prepend. by apply ask_reject. Qed.

Lemma menu_turn_accept typed c rs :
  menu_choice typed = Some c →
  menu_turn (line typed :: rs)
  = prepend [Ext (console_input menu_prompt) (line typed)]
      (guard (match_user_input c) rs).
Proof.
  intros H. unfold menu_turn.
  by rewrite (guard_bind_ok _ _ _ c rs [Ext (console_input menu_prompt) (line typed)])
    by by apply ask_accept.
Qed.

Lemma menu_turn_skip bad rs :
  Forall (λ typed, menu_choice typed = None) bad →
  menu_turn ((line <$> bad) ++ rs) = prepend (reprompts bad) (menu_turn rs).
Proof.
  induction 1 as [|typed bad H _ IH].
  - by rewrite prepend_nil.
  - rewrite fmap_cons, <-app_comm_cons, menu_turn_reject by done.
    rewrite IH. by rewrite prepend_prepend.
Qed.

Lemma interrupted_app t1 t2 :
  interrupted (t1 ++ t2) = interrupted t1 || interrupted t2.
Proof. apply existsb_app. Qed.

Lemma selected_app cmd t1 t2 :
  selected cmd (t1 ++ t2) = selected cmd t1 || selected cmd t2.
Proof. apply existsb_app. Qed.

Lemma calls_app p t1 t2 : calls p (t1 ++ t2) = calls p t1 || calls p t2.
Proof. apply existsb_app. Qed.

Lemma not_interrupted {A} (m : M A) rs :
  quiet m → res (m rs) ≠ Raise KeyboardInterrupt → interrupted (trace (m rs)) = false.
Proof.
  intros Hm Hr. destruct (Hm rs) as ([_ H] & _).
  destruct (interrupted (trace (m rs))); [|done]. by destruct Hr; apply H.
Qed.

Lemma quiet_ret {A} (a : A) : quiet (ret a).
Proof. intros rs. simpl. split_and!; [split|..]; done. Qed.

Lemma quiet_raise {A} e : e ≠ KeyboardInterrupt → quiet (@raise A e).
Proof. intros He rs. simpl. split_and!; [split|..]; [congruence|done..]. Qed.

Lemma quiet_emit o : quiet (emit o).
Proof. intros rs. simpl. split_and!; [split|..]; done. Qed.

Lemma quiet_do_call c :
  is_menu_prompt c = false → is_help_prompt c = false → quiet (do_call c).
Proof.
  intros Hm Hh [|[v|e] rs]; simpl.
  - split_and!; [split|..]; done.
  - unfold selected; simpl. rewrite Hm.
    split_and!; [split| |]; try done. by destruct v.
  - unfold interrupted; simpl. rewrite Hh.
    split_and!; [split| |]; try done; destruct e; simpl; congruence.
Qed.

Lemma quiet_bind {A B} (m : M A) (k : A → M B) :
  quiet m → (∀ a, quiet (k a)) → quiet (bind m k).
Proof.
  intros Hm Hk rs. pose proof (not_interrupted m rs Hm) as Hni.
  destruct (Hm rs) as (Hi & Hs & Hd). unfold bind.
  destruct (m rs) as [[a|e| |] rs' t]; simpl in *; [| | |done].
  - destruct (Hk a rs') as (Hi' & Hs' & Hd').
    rewrite interrupted_app, selected_app, Hs, Hs', Hni by done. done.
  - split_and!; [split|done..].
    + intros [= ->]. by apply Hi.
    + intros H%Hi. by injection H as ->.
  - split_and!; [split|done..]; [done|]. by intros H%Hi.
Qed.

Lemma breaks_ret : breaks (ret (Some Break)).
Proof. by intros rs x [= <-]. Qed.

Lemma breaks_bind {A} (m : M A) k : (∀ a, breaks (k a)) → breaks (bind m k).
Proof.
  intros Hk rs x. unfold bind.
  destruct (m rs) as [[a|e| |] rs' t]; simpl; try done. apply Hk.
Qed.

Lemma quiet_unpack3 v : quiet (unpack3 v).
Proof.
  unfold unpack3. destruct (iter_items v) as [[|a [|b [|c [|]]]]|];
    first [apply quiet_ret | by apply quiet_raise].
Qed.

Lemma quiet_unpack4 v : quiet (unpack4 v).
Proof.
  unfold unpack4. destruct (iter_items v) as [[|a [|b [|c [|d [|]]]]]|];
    first [apply quiet_ret | by apply quiet_raise].
Qed.

Create HintDb runs discriminated.
#[local] Hint Resolve quiet_ret quiet_emit quiet_unpack3 quiet_unpack4
  breaks_ret : runs.
#[local] Hint Extern 1 (quiet (do_call _)) =>
  apply quiet_do_call; reflexivity : runs.
#[local] Hint Extern 1 (quiet (raise _)) => apply quiet_raise; discriminate : runs.
#[local] Hint Extern 2 (quiet (bind _ _)) => apply quiet_bind; [|intros] : runs.
#[local] Hint Extern 2 (breaks (bind _ _)) => apply breaks_bind; intros : runs.
#[local] Hint Extern 3 (quiet (if ?b then _ else _)) => destruct b : runs.
#[local] Hint Extern 3 (breaks (if ?b then _ else _)) => destruct b : runs.
#[local] Hint Extern 3 (quiet (let '(_, _) := ?x in _)) => destruct x : runs.
#[local] Hint Extern 3 (breaks (let '(_, _) := ?x in _)) => destruct x : runs.

Lemma quiet_discovery_scan : quiet discovery_scan.
Proof. unfold discovery_scan. auto 20 with runs. Qed.

Lemma breaks_discovery_scan : breaks discovery_scan.
Proof. unfold discovery_scan. auto 20 with runs. Qed.

Lemma quiet_full_scan : quiet full_scan.
Proof. unfold full_scan. auto 20 with runs. Qed.

Lemma breaks_full_scan : breaks full_scan.
Proof. unfold full_scan. auto 20 with runs. Qed.

(** The help prompt has no choices: whatever is typed is accepted. *)
Lemma help_ask_cases rs :
  match rs with
  | [] =>
      Prompt_ask help_prompt None true None rs
      = Outcome Blocked [] [Pending (console_input help_prompt)]
  | Raises e :: rs' =>
      Prompt_ask help_prompt None true None rs
      = Outcome (Raise e) rs' [Ext (console_input help_prompt) (Raises e)]
  | Returns (VStr typed) :: rs' =>
      Prompt_ask help_prompt None true None rs
      = Outcome (Ok (strip typed)) rs'
          [Ext (console_input help_prompt) (line typed)]
  | Returns v :: rs' =>
      Prompt_ask help_prompt None true None rs
      = Outcome (Raise AttributeError) rs'
          [Ext (console_input help_prompt) (Returns v)]
  end.
Proof.
  destruct rs as [|[v|e] rs']; [done| |done].
  destruct v; try (by apply ask_not_str). by apply ask_accept.
Qed.

Lemma help_screen_run rs :
  help_screen rs
  = prepend [Out console_clear;
             Out (console_print_Panel help_text "Help" "cyan bold" "left")]
      match rs with
      | [] => Outcome Blocked [] [Pending (console_input help_prompt)]
      | Raises e :: rs' =>
          Outcome (if is_KeyboardInterrupt e then Ok VNone else Raise e) rs'
            [Ext (console_input help_prompt) (Raises e)]
      | Returns (VStr typed) :: rs' =>
          Outcome (Ok VNone) rs' [Ext (console_input help_prompt) (line typed)]
      | Returns v :: rs' =>
          Outcome (Raise AttributeError) rs'
            [Ext (console_input help_prompt) (Returns v)]
      end.
Proof.
  pose proof (help_ask_cases rs) as H.
  unfold help_screen, bind, try_except; simpl.
  destruct rs as [|[v|e] rs']; [by rewrite H| |rewrite H; by destruct e].
  destruct v; by rewrite H.
Qed.

Lemma quiet_help_screen : quiet help_screen.
Proof.
  intros rs. rewrite help_screen_run.
  destruct rs as [|[v|e] rs']; [done| |by destruct e].
  destruct v; done.
Qed.

Lemma view_exposure_loop_cons r rs :
  view_exposure_loop (r :: rs)
  = match r with
    | Returns again =>
        if truthy again
        then prepend [Ext ui_view_exposure r] (view_exposure_loop rs)
        else Outcome (Ok tt) rs [Ext ui_view_exposure r]
    | Raises e => Outcome (Raise e) rs [Ext ui_view_exposure r]
    end.
Proof.
  unfold view_exposure_loop, while_True. cbn [length]. rewrite while_fuel_S.
  destruct r as [again|e]; [|done]. unfold bind; simpl.
  by destruct (truthy again).
Qed.

Lemma selects_other cmd c r : is_menu_prompt c = false → selects cmd (Ext c r) = false.
Proof. intros H. destruct r as [[]|]; simpl; by rewrite ?H. Qed.

Lemma quiet_view_exposure_loop : quiet view_exposure_loop.
Proof.
  intros rs. induction rs as [|r rs IH]; [done|].
  rewrite view_exposure_loop_cons. destruct r as [again|e].
  - destruct IH as (Hi & Hs & Hd).
    destruct (truthy again).
    + rewrite res_prepend, trace_prepend, interrupted_app, selected_app, Hs.
      unfold selected at 1. cbn [existsb]. by rewrite selects_other.
    + unfold selected. cbn [existsb trace res]. by rewrite selects_other.
  - by destruct e.
Qed.

#[local] Hint Resolve quiet_help_screen quiet_view_exposure_loop
  quiet_discovery_scan quiet_full_scan breaks_discovery_scan breaks_full_scan : runs.

(** Every command but [q] runs quietly and ends the turn by [break]. *)
Lemma match_user_input_quiet c :
  c = "h" ∨ c = "d" ∨ c = "v" ∨ c = "f" →
  quiet (match_user_input c) ∧ breaks (match_user_input c).
Proof.
  intros [->|[->|[->| ->]]]; unfold match_user_input; simpl;
    split; auto 10 with runs.
Qed.

Lemma match_user_input_q rs :
  guard (match_user_input "q") rs
  = Outcome (Ok (Some (Return (VBool false)))) rs [Out goodbye].
Proof. reflexivity. Qed.

(** What the handler makes of a quiet turn that ends by [break]. *)
Lemma guard_quiet m rs :
  quiet m → breaks m →
  let o := guard m rs in
  (res o = Ok (Some (Return (VBool false))) ↔ interrupted (trace o) = true)
  ∧ (∀ x, res o = Ok x → x = Some Break ∨ x = Some (Return (VBool false)))
  ∧ selected "q" (trace o) = false
  ∧ res o ≠ Raise KeyboardInterrupt
  ∧ res o ≠ Diverge.
Proof.
  intros Hq Hb. pose proof (not_interrupted m rs Hq) as Hni.
  destruct (Hq rs) as (Hi & Hs & Hd). specialize (Hb rs).
  unfold guard, try_except. simpl.
  destruct (m rs) as [[x|e| |] rs' t]; simpl in *; [| | |done].
  - rewrite Hni by done. rewrite (Hb x) by done. split_and!; try done.
    intros ? [= <-]. by left.
  - destruct e; simpl; rewrite ?Hni by done; try (split_and!; done).
    rewrite interrupted_app, selected_app, Hs.
    assert (interrupted t = true) as -> by by apply Hi.
    split_and!; try done. intros ? [= <-]. by right.
  - rewrite Hni by done. split_and!; done.
Qed.

Arguments menu_choice : simpl never.

Lemma selected_menu_prompt cmd typed t :
  selected cmd (Ext (console_input menu_prompt) (line typed) :: t)
  = bool_decide (menu_choice typed = Some cmd) || selected cmd t.
Proof. reflexivity. Qed.

Lemma interrupted_menu_prompt typed t :
  interrupted (Ext (console_input menu_prompt) (line typed) :: t) = interrupted t.
Proof. reflexivity. Qed.

(** ** The menu loop *)

Lemma menu_turn_inv rs : turn_inv (menu_turn rs).
Proof.
  induction rs as [|[v|e] rs IH].
  - rewrite menu_turn_blocked. by split_and!.
  - destruct v as [| |typed| |];
      try (rewrite menu_turn_not_str by done; by split_and!).
    fold (line typed). destruct (menu_choice typed) as [c|] eqn:Hc.
    + rewrite (menu_turn_accept _ c) by done.
      unfold turn_inv, prepend. cbn [res trace app].
      rewrite selected_menu_prompt, interrupted_menu_prompt, Hc.
      destruct (menu_choice_cases _ _ Hc) as [->|[->|[->|[->| ->]]]];
        [| | | |rewrite match_user_input_q; simpl; split_and!; try done;
                intros ? [= <-]; by right];
        (rewrite bool_decide_false by done;
         edestruct match_user_input_quiet as [Hq Hb];
           [|destruct (guard_quiet _ rs Hq Hb) as (H1 & H2 & H3 & H4 & H5);
             cbn zeta in *; rewrite H3; cbn [orb]; by split_and!];
         auto).
    + rewrite menu_turn_reject by done.
      destruct IH as (H1 & H2 & H3 & H4).
      unfold turn_inv, prepend. cbn [res trace app].
      rewrite selected_menu_prompt, interrupted_menu_prompt, Hc.
      rewrite bool_decide_false by done. by split_and!.
  - rewrite menu_turn_raises.
    destruct e; unfold turn_inv; simpl; split_and!; try done.
    intros ? [= <-]. by right.
Qed.

Lemma menu_loop_finish rs : menu_loop rs = finish (menu_turn rs).
Proof.
  destruct (menu_turn_inv rs) as (_ & H & _).
  unfold menu_loop, bind, while_True. rewrite while_fuel_S. unfold finish.
  destruct (menu_turn rs) as [[[[|v]|]|e| |] rs' t]; simpl in *; try done.
  - unfold prepend, ret; simpl. by rewrite app_nil_r.
  - unfold prepend, ret; simpl. by rewrite app_nil_r.
  - by destruct (H None eq_refl).
Qed.

Lemma menu_screen_run welcome api rs :
  menu_screen (Returns welcome :: Returns api :: rs)
  = prepend (prelude welcome api) (finish (menu_turn rs)).
Proof.
  unfold menu_screen, bind, prelude. cbn [do_call res rest trace].
  rewrite menu_loop_finish.
  destruct (is_None api); unfold prepend; simpl; done.
Qed.

(** The run on a script in which the menu prompt, after refusing the lines
    of [bad], accepts [typed] as the command [c]. *)
Lemma menu_screen_accept welcome api bad typed c rs :
  Forall (λ l, menu_choice l = None) bad →
  menu_choice typed = Some c →
  menu_screen (Returns welcome :: Returns api :: (line <$> bad) ++ line typed :: rs)
  = prepend
      (prelude welcome api ++ reprompts bad
         ++ [Ext (console_input menu_prompt) (line typed)])
      (finish (guard (match_user_input c) rs)).
Proof.
  intros Hbad Hc. rewrite menu_screen_run, menu_turn_skip by done.
  rewrite (menu_turn_accept _ c) by done.
  rewrite !finish_prepend, !prepend_prepend. by rewrite <-!app_assoc.
Qed.

(** ** Traces of the pieces *)

Lemma bind_trace {A B} (m : M A) (k : A → M B) rs :
  ∃ t, trace (bind m k rs) = trace (m rs) ++ t.
Proof.
  unfold bind. destruct (m rs) as [[a|e| |] rs' t]; simpl; eauto using app_nil_r.
Qed.

Lemma bind_do_call_trace {B} c (k : value → M B) rs :
  ∃ t, trace (bind (do_call c) k rs) = first_call c rs :: t.
Proof.
  destruct (bind_trace (do_call c) k rs) as [t ->].
  destruct rs as [|[v|e] rs]; simpl; eauto.
Qed.

Lemma guard_trace m rs : ∃ t, trace (guard m rs) = trace (m rs) ++ t.
Proof.
  unfold guard, try_except.
  destruct (m rs) as [[a|e| |] rs' t]; simpl; eauto using app_nil_r.
  destruct (is_KeyboardInterrupt e); simpl; eauto using app_nil_r.
Qed.

Lemma view_exposure_loop_trace rs :
  ∃ t, trace (view_exposure_loop rs) = first_call ui_view_exposure rs :: t.
Proof.
  destruct rs as [|r rs]; [by eexists|]. rewrite view_exposure_loop_cons.
  destruct r as [again|e]; [destruct (truthy again)|]; simpl; eauto.
Qed.

Lemma help_screen_trace rs :
  ∃ t, trace (help_screen rs)
       = Out console_clear
         :: Out (console_print_Panel help_text "Help" "cyan bold" "left")
         :: first_call (console_input help_prompt) rs :: t.
Proof.
  rewrite help_screen_run.
  destruct rs as [|[v|e] rs]; [| destruct v |]; simpl; eauto.
Qed.

Lemma calls_reprompts p bad :
  p (console_input menu_prompt) = false → calls p (reprompts bad) = false.
Proof.
  intros Hp. induction bad as [|typed bad IH]; [done|].
  unfold reprompts. rewrite bind_cons, calls_app. fold (reprompts bad).
  rewrite IH. simpl. by rewrite Hp.
Qed.

Lemma selected_prelude cmd welcome api : selected cmd (prelude welcome api) = false.
Proof.
  unfold prelude. rewrite selected_app. unfold selected at 1. cbn [existsb].
  rewrite !selects_other by done. by destruct (is_None api).
Qed.

Lemma interrupted_prelude welcome api : interrupted (prelude welcome api) = false.
Proof. unfold prelude. by destruct (is_None api). Qed.

Lemma calls_prelude p welcome api :
  calls p (prelude welcome api) = p ui_show_welcome_screen || p utils_get_shodan_api.
Proof.
  unfold prelude. destruct (is_None api); simpl; by rewrite !orb_false_r.
Qed.

(** ** [str.strip] is idempotent *)

Lemma lstrip_solid s : starts_solid (lstrip s).
Proof.
  induction s as [|c s IH]; simpl; [done|].
  by destruct (is_whitespace c) eqn:Hc.
Qed.

Lemma lstrip_id s : starts_solid s → lstrip s = s.
Proof. destruct s as [|c s]; simpl; [done|]. by intros ->. Qed.

Lemma rstrip_solid s : starts_solid s → starts_solid (rstrip s).
Proof.
  destruct s as [|c s]; simpl; [done|]. intros Hc.
  destruct (rstrip s); by rewrite ?Hc.
Qed.

Lemma rstrip_idem s : rstrip (rstrip s) = rstrip s.
Proof.
  induction s as [|c s IH]; simpl; [done|].
  destruct (rstrip s) as [|a r] eqn:Hr.
  - destruct (is_whitespace c) eqn:Hc; simpl; by rewrite ?Hc.
  - change (rstrip (String c (String a r))) with
      (match rstrip (String a r) with
       | EmptyString => if is_whitespace c then EmptyString else String c EmptyString
       | r' => String c r'
       end).
    by rewrite IH.
Qed.

Lemma strip_idem s : strip (strip s) = strip s.
Proof.
  unfold strip. rewrite (lstrip_id (rstrip (lstrip s))).
  - apply rstrip_idem.
  - apply rstrip_solid, lstrip_solid.
Qed.

(** A line that reads as a command once blanks are stripped and letters
    lowered is accepted as that command. *)
Lemma menu_choice_lower typed c :
  c ∈ commands → lower (strip typed) = c → menu_choice typed = Some c.
Proof.
  intros Hc Hl. unfold menu_choice, accept.
  destruct (String.eqb_spec typed "") as [->|_].
  { subst c. unfold commands in Hc.
    rewrite !elem_of_cons, elem_of_nil in Hc. by repeat destruct Hc as [Hc|Hc]. }
  unfold process_response, check_choice. rewrite strip_idem, Hl.
  unfold commands in Hc. rewrite !elem_of_cons, elem_of_nil in Hc.
  destruct Hc as [->|[->|[->|[->|[->|[]]]]]]; reflexivity.
Qed.

Lemma menu_choice_verbatim c : c ∈ commands → menu_choice c = Some c.
Proof.
  intros Hc. apply menu_choice_lower; [done|].
  unfold commands in Hc. rewrite !elem_of_cons, elem_of_nil in Hc.
  destruct Hc as [->|[->|[->|[->|[->|[]]]]]]; reflexivity.
Qed.

Lemma menu_choice_empty : menu_choice "" = Some "h".
Proof. reflexivity. Qed.

(** The run of [full_scan] once its menu has answered. *)
Lemma full_scan_menu_run r use_existing domain country_codes save rs :
  iter_items r = Some [use_existing; domain; country_codes; save] →
  full_scan (Returns r :: rs)
  = prepend [Ext ui_full_scan_menu (Returns r); Out console_clear]
      ((let* scanned :=
          if truthy domain then
            do_call (scan_full
              [("domain", domain); ("country_codes", country_codes);
               ("save", save)]) >>
            ret true
          else if truthy use_existing then
            do_call (scan_full [("use_existing", use_existing); ("save", save)]) >>
            ret true
          else ret false in
        if negb scanned then ret (Some Break)
        else
          do_call (ui_schedule_scan_menu
            [("scan_type", VStr "full");
             ("domain", if negb (truthy use_existing) then domain else VNone);
             ("country_codes",
                if negb (truthy use_existing) then country_codes else VList []);
             ("use_existing", use_existing);
             ("save", save)]) >>
          do_call (input "Press Enter to continue...") >>
          do_call ui_view_exposure >>
          ret (Some Break)) rs).
Proof.
  intros Hr. unfold full_scan.
  rewrite (bind_run _ _ _ r rs [Ext ui_full_scan_menu (Returns r)]) by done.
  rewrite (bind_run (unpack4 r) _ rs
             (use_existing, domain, country_codes, save) rs [])
    by (unfold unpack4; by rewrite Hr).
  cbv beta iota.
  rewrite (bind_run (emit console_clear) _ rs tt rs [Out console_clear]) by done.
  by rewrite !prepend_prepend.
Qed.

(** The run of [discovery_scan] once its menu has answered. *)
Lemma discovery_scan_menu_run r domain country_codes save rs :
  iter_items r = Some [domain; country_codes; save] →
  discovery_scan (Returns r :: rs)
  = prepend [Ext ui_discovery_scan_menu (Returns r); Out console_clear]
      ((if negb (truthy domain) then ret (Some Break)
        else
          do_call (scan_discovery
            [("domain", domain); ("country_codes", country_codes);
             ("save", save)]) >>
          do_call (ui_schedule_scan_menu
            [("scan_type", VStr "discovery"); ("domain", domain);
             ("country_codes", country_codes); ("save", save)]) >>
          do_call (input "Press Enter to continue...") >>
          do_call ui_view_exposure >>
          ret (Some Break)) rs).
Proof.
  intros Hr. unfold discovery_scan.
  rewrite (bind_run _ _ _ r rs [Ext ui_discovery_scan_menu (Returns r)]) by done.
  rewrite (bind_run (unpack3 r) _ rs (domain, country_codes, save) rs [])
    by (unfold unpack3; by rewrite Hr).
  cbv beta iota.
  rewrite (bind_run (emit console_clear) _ rs tt rs [Out console_clear]) by done.
  by rewrite !prepend_prepend.
Qed.

Lemma match_user_input_h : match_user_input "h" = (help_screen >> ret (Some Break)).
Proof. reflexivity. Qed.

Lemma match_user_input_d : match_user_input "d" = discovery_scan.
Proof. reflexivity. Qed.

Lemma match_user_input_v :
  match_user_input "v" = (view_exposure_loop >> ret (Some Break)).
Proof. reflexivity. Qed.

Lemma match_user_input_f : match_user_input "f" = full_scan.
Proof. reflexivity. Qed.

(** The handler leaves a turn that completes as it is. *)
Lemma guard_ok m rs x rs' t :
  m rs = Outcome (Ok x) rs' t → guard m rs = Outcome (Ok x) rs' t.
Proof. intros H. unfold guard, try_except. by rewrite H. Qed.

Lemma finish_break rs t :
  finish (Outcome (Ok (Some Break)) rs t) = Outcome (Ok (VBool true)) rs t.
Proof. reflexivity. Qed.

(** Name the trace of a run that starts with a call. *)
Ltac first_call_trace :=
  match goal with
  | |- context [trace (bind (do_call ?c) ?k ?rs)] =>
      let t := fresh "t" in
      destruct (bind_do_call_trace c k rs) as [t ->]
  end.

Lemma menu_turn_trace rs :
  ∃ t, trace (menu_turn rs) = first_call (console_input menu_prompt) rs :: t.
Proof.
  destruct rs as [|[v|e] rs].
  - rewrite menu_turn_blocked. by eexists.
  - destruct v as [| |typed| |];
      try (rewrite menu_turn_not_str by done; by eexists).
    fold (line typed). destruct (menu_choice typed) as [c|] eqn:Hc.
    + rewrite (menu_turn_accept _ c) by done. by eexists.
    + rewrite menu_turn_reject by done. by eexists.
  - rewrite menu_turn_raises. destruct (is_KeyboardInterrupt e); by eexists.
Qed.

(* ------------------------------------------------------------------ *)
(** * The claims about [menu_screen] *)

(** C7.  The main menu accepts exactly the five commands d, f, v, h, q:
    whatever the prompt accepts is one of them and each of them is accepted
    as typed.  The accepted command is dispatched.  For d the discovery
    scan menu is called and, when it returns a truthy domain, the console
    is cleared and [scan.discovery] is called with the domain, the country
    codes and the save flag of the menu.  For f the full scan menu is
    called and, when it returns exactly one of domain and [use_existing],
    the console is cleared and [scan.full] is called with that input.  For
    v the exposure view is called, for h the help panel is printed and its
    prompt asked, and q prints the goodbye message and returns [False].
    The lines the prompt refused before ([bad]) only made it ask again. *)
Theorem menu_dispatches_five_commands welcome api bad typed c rs :
  Forall (λ l, menu_choice l = None) bad →
  menu_choice typed = Some c →
  let o := menu_screen
             (Returns welcome :: Returns api :: (line <$> bad) ++ line typed :: rs) in
  let before := prelude welcome api ++ reprompts bad
                ++ [Ext (console_input menu_prompt) (line typed)] in
  c ∈ ["d"; "f"; "v"; "h"; "q"]
  ∧ (∀ x, x ∈ ["d"; "f"; "v"; "h"; "q"] → menu_choice x = Some x)
  ∧ (c = "d" →
     (∃ t, trace o = before ++ first_call ui_discovery_scan_menu rs :: t)
     ∧ ∀ r domain country_codes save rs',
         rs = Returns r :: rs' →
         iter_items r = Some [domain; country_codes; save] →
         truthy domain = true →
         ∃ t, trace o
              = before
                ++ [Ext ui_discovery_scan_menu (Returns r);
                    Out console_clear;
                    first_call
                      (scan_discovery
                         [("domain", domain); ("country_codes", country_codes);
                          ("save", save)]) rs']
                ++ t)
  ∧ (c = "f" →
     (∃ t, trace o = before ++ first_call ui_full_scan_menu rs :: t)
     ∧ ∀ r use_existing domain country_codes save rs',
         rs = Returns r :: rs' →
         iter_items r = Some [use_existing; domain; country_codes; save] →
         truthy domain = negb (truthy use_existing) →
         ∃ t, trace o
              = before
                ++ [Ext ui_full_scan_menu (Returns r);
                    Out console_clear;
                    first_call
                      (scan_full
                         (if truthy domain
                          then [("domain", domain);
                                ("country_codes", country_codes);
                                ("save", save)]
                          else [("use_existing", use_existing);
                                ("save", save)])) rs']
                ++ t)
  ∧ (c = "v" → ∃ t, trace o = before ++ first_call ui_view_exposure rs :: t)
  ∧ (c = "h" →
     ∃ t, trace o
          = before
            ++ Out console_clear
               :: Out (console_print_Panel help_text "Help" "cyan bold" "left")
               :: first_call (console_input help_prompt) rs :: t)
  ∧ (c = "q" → o = Outcome (Ok (VBool false)) rs (before ++ [Out goodbye])).
Proof.
  intros Hbad Hc. cbv zeta.
  rewrite (menu_screen_accept _ _ _ _ c) by done.
  rewrite trace_prepend. cbn [finish trace].
  destruct (guard_trace (match_user_input c) rs) as [t' ->].
  split_and!.
  - destruct (menu_choice_cases _ _ Hc) as [->|[->|[->|[->| ->]]]];
      rewrite !elem_of_cons; auto 10.
  - intros x Hx. apply menu_choice_verbatim. unfold commands.
    rewrite !elem_of_cons, elem_of_nil in *.
    destruct Hx as [->|[->|[->|[->|[->|[]]]]]]; auto 10.
  - intros ->. rewrite match_user_input_d. split.
    + unfold discovery_scan. first_call_trace. by eexists.
    + intros r domain country_codes save rs' -> Hr Hd.
      rewrite (discovery_scan_menu_run _ _ _ _ _ Hr), trace_prepend, Hd.
      cbn [negb]. first_call_trace. eexists.
      rewrite <-!app_assoc. reflexivity.
  - intros ->. rewrite match_user_input_f. split.
    + unfold full_scan. first_call_trace. by eexists.
    + intros r use_existing domain country_codes save rs' -> Hr Hx.
      rewrite (full_scan_menu_run _ _ _ _ _ _ Hr), trace_prepend, Hx.
      match goal with
      | |- context [trace (bind ?m ?k rs')] =>
          destruct (bind_trace m k rs') as [t2 ->]
      end.
      destruct (truthy use_existing); cbn [negb];
        first_call_trace; eexists; rewrite <-!app_assoc; reflexivity.
  - intros ->. rewrite match_user_input_v.
    destruct (bind_trace view_exposure_loop (λ _, ret (Some Break)) rs) as [t2 ->].
    destruct (view_exposure_loop_trace rs) as [t3 ->]. by eexists.
  - intros ->. rewrite match_user_input_h.
    destruct (bind_trace help_screen (λ _, ret (Some Break)) rs) as [t2 ->].
    destruct (help_screen_trace rs) as [t3 ->]. by eexists.
  - intros ->. by rewrite match_user_input_q.
Qed.

Lemma menu_dispatches_five_commands_witness :
  ∃ t,
    trace (menu_screen
             [Returns VNone; Returns (VStr "key"); line "x"; line " D";
              Returns (VTuple [VStr "example.com"; VList []; VBool true])])
    = [Ext ui_show_welcome_screen (Returns VNone);
       Ext utils_get_shodan_api (Returns (VStr "key"));
       Ext (console_input menu_prompt) (line "x");
       Out (console_print illegal_choice_message None);
       Ext (console_input menu_prompt) (line " D");
       Ext ui_discovery_scan_menu
         (Returns (VTuple [VStr "example.com"; VList []; VBool true]));
       Out console_clear;
       Pending (scan_discovery
                  [("domain", VStr "example.com"); ("country_codes", VList []);
                   ("save", VBool true)])]
      ++ t.
Proof.
  destruct (menu_dispatches_five_commands VNone (VStr "key") ["x"] " D" "d"
              [Returns (VTuple [VStr "example.com"; VList []; VBool true])])
    as (_ & _ & H & _).
  - repeat constructor.
  - reflexivity.
  - destruct (H eq_refl) as [_ H'].
    destruct (H' (VTuple [VStr "example.com"; VList []; VBool true])
                (VStr "example.com") (VList []) (VBool true) []
                eq_refl eq_refl eq_refl) as [t Ht].
    exists t. exact Ht.
Defined.

(** C9.  When the discovery menu returns a falsy domain, [menu_screen] makes
    no call to [scan.discovery], to [ui.schedule_scan_menu] or to
    [ui.view_exposure]: after clearing the console it returns [True]. *)
Theorem empty_domain_skips_discovery
    welcome api bad typed r domain country_codes save rs :
  Forall (λ l, menu_choice l = None) bad →
  menu_choice typed = Some "d" →
  iter_items r = Some [domain; country_codes; save] →
  truthy domain = false →
  let o := menu_screen
             (Returns welcome :: Returns api
              :: (line <$> bad) ++ line typed :: Returns r :: rs) in
  o = Outcome (Ok (VBool true)) rs
        (prelude welcome api ++ reprompts bad
         ++ [Ext (console_input menu_prompt) (line typed);
             Ext ui_discovery_scan_menu (Returns r);
             Out console_clear])
  ∧ calls is_scan_discovery (trace o) = false
  ∧ calls is_schedule_scan_menu (trace o) = false
  ∧ calls is_view_exposure (trace o) = false.
Proof.
  intros Hbad Hc Hr Hd. cbv zeta.
  rewrite (menu_screen_accept _ _ _ _ "d") by done.
  rewrite match_user_input_d.
  rewrite (guard_ok _ _ (Some Break) rs
             [Ext ui_discovery_scan_menu (Returns r); Out console_clear]).
  2:{ rewrite (discovery_scan_menu_run _ _ _ _ _ Hr), Hd. reflexivity. }
  rewrite finish_break. unfold prepend. cbn [res rest trace].
  rewrite <-!app_assoc. split; [reflexivity|].
  rewrite !calls_app, !calls_prelude, !calls_reprompts by done.
  done.
Qed.

Lemma empty_domain_skips_discovery_witness :
  menu_screen
    [Returns VNone; Returns VNone; line "D";
     Returns (VTuple [VStr ""; VList []; VBool false]); line "q"]
  = Outcome (Ok (VBool true)) [line "q"]
      [Ext ui_show_welcome_screen (Returns VNone);
       Ext utils_get_shodan_api (Returns VNone);
       Out (console_print api_key_warning None);
       Ext (console_input menu_prompt) (line "D");
       Ext ui_discovery_scan_menu
         (Returns (VTuple [VStr ""; VList []; VBool false]));
       Out console_clear].
Proof.
  destruct (empty_domain_skips_discovery VNone VNone [] "D"
              (VTuple [VStr ""; VList []; VBool false])
              (VStr "") (VList []) (VBool false) [line "q"])
    as [H _].
  - constructor.
  - reflexivity.
  - reflexivity.
  - reflexivity.
  - exact H.
Defined.

(** C1, as the code has it.  After the full scan menu, when neither a
    domain nor [use_existing] is supplied no scan runs: [scan.full] is not
    called, nothing is scheduled or viewed, and [menu_screen] returns
    [True] (no error is raised or returned).  When only a domain is
    supplied the next call is [scan.full(domain, country_codes, save)], and
    when only [use_existing] is supplied it is
    [scan.full(use_existing, save)]. *)
Theorem full_scan_needs_domain_or_existing
    welcome api bad typed r use_existing domain country_codes save rs :
  Forall (λ l, menu_choice l = None) bad →
  menu_choice typed = Some "f" →
  iter_items r = Some [use_existing; domain; country_codes; save] →
  let o := menu_screen
             (Returns welcome :: Returns api
              :: (line <$> bad) ++ line typed :: Returns r :: rs) in
  let before := prelude welcome api ++ reprompts bad
                ++ [Ext (console_input menu_prompt) (line typed);
                    Ext ui_full_scan_menu (Returns r);
                    Out console_clear] in
  (truthy domain = false → truthy use_existing = false →
   o = Outcome (Ok (VBool true)) rs before
   ∧ calls is_scan_full (trace o) = false
   ∧ calls is_schedule_scan_menu (trace o) = false
   ∧ calls is_view_exposure (trace o) = false)
  ∧ (truthy domain = true → truthy use_existing = false →
     ∃ t, trace o
          = before
            ++ first_call
                 (scan_full [("domain", domain);
                             ("country_codes", country_codes);
                             ("save", save)]) rs :: t)
  ∧ (truthy domain = false → truthy use_existing = true →
     ∃ t, trace o
          = before
            ++ first_call
                 (scan_full [("use_existing", use_existing); ("save", save)])
                 rs :: t).
Proof.
  intros Hbad Hc Hr. cbv zeta.
  rewrite (menu_screen_accept _ _ _ _ "f") by done.
  rewrite match_user_input_f. split_and!.
  - intros Hd Hu.
    rewrite (guard_ok _ _ (Some Break) rs
               [Ext ui_full_scan_menu (Returns r); Out console_clear]).
    2:{ rewrite (full_scan_menu_run _ _ _ _ _ _ Hr), Hd, Hu. reflexivity. }
    rewrite finish_break. unfold prepend. cbn [res rest trace].
    rewrite <-!app_assoc. split; [reflexivity|].
    rewrite !calls_app, !calls_prelude, !calls_reprompts by done.
    done.
  - intros Hd Hu. rewrite trace_prepend. cbn [finish trace].
    destruct (guard_trace full_scan (Returns r :: rs)) as [t' ->].
    rewrite (full_scan_menu_run _ _ _ _ _ _ Hr), !trace_prepend, Hd.
    match goal with
    | |- context [trace (bind ?m ?k rs)] =>
        destruct (bind_trace m k rs) as [t2 ->]
    end.
    first_call_trace. eexists. rewrite <-!app_assoc. reflexivity.
  - intros Hd Hu. rewrite trace_prepend. cbn [finish trace].
    destruct (guard_trace full_scan (Returns r :: rs)) as [t' ->].
    rewrite (full_scan_menu_run _ _ _ _ _ _ Hr), !trace_prepend, Hd, Hu.
    match goal with
    | |- context [trace (bind ?m ?k rs)] =>
        destruct (bind_trace m k rs) as [t2 ->]
    end.
    first_call_trace. eexists. rewrite <-!app_assoc. reflexivity.
Qed.

Lemma full_scan_needs_domain_or_existing_witness :
  ∃ t,
    trace (menu_screen
             [Returns VNone; Returns (VStr "key"); line "f";
              Returns (VTuple [VBool true; VNone; VList []; VBool false])])
    = [Ext ui_show_welcome_screen (Returns VNone);
       Ext utils_get_shodan_api (Returns (VStr "key"));
       Ext (console_input menu_prompt) (line "f");
       Ext ui_full_scan_menu
         (Returns (VTuple [VBool true; VNone; VList []; VBool false]));
       Out console_clear;
       Pending (scan_full [("use_existing", VBool true); ("save", VBool false)])]
      ++ t.
Proof.
  destruct (full_scan_needs_domain_or_existing VNone (VStr "key") [] "f"
              (VTuple [VBool true; VNone; VList []; VBool false])
              (VBool true) VNone (VList []) (VBool false) [])
    as (_ & _ & H).
  - constructor.
  - reflexivity.
  - reflexivity.
  - destruct (H eq_refl eq_refl) as [t Ht]. exists t. exact Ht.
Defined.

(** C1, as stated, fails: with neither a domain nor [use_existing] the full
    scan selection ends like any completed command, with [True] and with
    nothing raised or printed. *)
Lemma full_scan_without_input_returns_True :
  let o := menu_screen
             [Returns VNone; Returns (VStr "key"); line "f";
              Returns (VTuple [VBool false; VNone; VList []; VBool false])] in
  calls is_scan_full (trace o) = false
  ∧ res o = Ok (VBool true)
  ∧ (∀ e, res o ≠ Raise e)
  ∧ trace o
    = [Ext ui_show_welcome_screen (Returns VNone);
       Ext utils_get_shodan_api (Returns (VStr "key"));
       Ext (console_input menu_prompt) (line "f");
       Ext ui_full_scan_menu
         (Returns (VTuple [VBool false; VNone; VList []; VBool false]));
       Out console_clear].
Proof. vm_compute. by split_and!. Qed.

(** The snapshot handed to [ui.schedule_scan_menu] after a discovery scan
    carries the arguments [scan.discovery] was called with. *)
Lemma discovery_snapshot_agrees r domain country_codes save x rs :
  iter_items r = Some [domain; country_codes; save] →
  truthy domain = true →
  ∃ t,
    trace (discovery_scan (Returns r :: Returns x :: rs))
    = [Ext ui_discovery_scan_menu (Returns r);
       Out console_clear;
       Ext (scan_discovery
              [("domain", domain); ("country_codes", country_codes);
               ("save", save)]) (Returns x);
       first_call
         (ui_schedule_scan_menu
            [("scan_type", VStr "discovery"); ("domain", domain);
             ("country_codes", country_codes); ("save", save)]) rs]
      ++ t.
Proof.
  intros Hr Hd. unfold discovery_scan.
  rewrite (bind_run _ _ _ r (Returns x :: rs)
             [Ext ui_discovery_scan_menu (Returns r)]) by done.
  rewrite (bind_run (unpack3 r) _ (Returns x :: rs)
             (domain, country_codes, save) (Returns x :: rs) [])
    by (unfold unpack3; by rewrite Hr).
  cbv beta iota.
  rewrite (bind_run (emit console_clear) _ _ tt (Returns x :: rs)
             [Out console_clear]) by done.
  rewrite Hd. cbn [negb].
  rewrite (bind_run (do_call (scan_discovery _)) _ _ x rs
             [Ext (scan_discovery
                     [("domain", domain); ("country_codes", country_codes);
                      ("save", save)]) (Returns x)]) by done.
  rewrite !trace_prepend. first_call_trace. by eexists.
Qed.

(** After a full scan with exactly one of domain and [use_existing], the
    snapshot carries what [scan.full] was called with: the domain and the
    country codes for a domain scan, no domain and no country codes for a
    scan of the existing exposure. *)
Lemma full_scan_snapshot_agrees r use_existing domain country_codes save x rs :
  iter_items r = Some [use_existing; domain; country_codes; save] →
  truthy domain = negb (truthy use_existing) →
  ∃ t,
    trace (full_scan (Returns r :: Returns x :: rs))
    = [Ext ui_full_scan_menu (Returns r);
       Out console_clear;
       Ext (scan_full
              (if truthy domain
               then [("domain", domain); ("country_codes", country_codes);
                     ("save", save)]
               else [("use_existing", use_existing); ("save", save)]))
           (Returns x);
       first_call
         (ui_schedule_scan_menu
            (if truthy domain
             then [("scan_type", VStr "full"); ("domain", domain);
                   ("country_codes", country_codes);
                   ("use_existing", use_existing); ("save", save)]
             else [("scan_type", VStr "full"); ("domain", VNone);
                   ("country_codes", VList []);
                   ("use_existing", use_existing); ("save", save)])) rs]
      ++ t.
Proof.
  intros Hr Hx. rewrite (full_scan_menu_run _ _ _ _ _ _ Hr), trace_prepend.
  rewrite Hx. destruct (truthy use_existing); cbn [negb].
  - rewrite (bind_run _ _ _ true rs
               [Ext (scan_full [("use_existing", use_existing); ("save", save)])
                  (Returns x)]) by done.
    cbn [negb]. rewrite trace_prepend. first_call_trace. by eexists.
  - rewrite (bind_run _ _ _ true rs
               [Ext (scan_full
                       [("domain", domain); ("country_codes", country_codes);
                        ("save", save)]) (Returns x)]) by done.
    cbn [negb]. rewrite trace_prepend. first_call_trace. by eexists.
Qed.

(** C5, at the input where the code departs from it.  When the full scan
    menu returns a domain together with [use_existing=True], [scan.full] is
    run on the domain with its country codes, yet the snapshot handed to
    [ui.schedule_scan_menu] records no domain, no country codes and
    [use_existing=True]. *)
Theorem full_scan_snapshot_drops_domain :
  menu_screen
    [Returns VNone; Returns (VStr "key"); line "f";
     Returns (VTuple [VBool true; VStr "example.com"; VList [VStr "NO"]; VBool true]);
     Returns VNone]
  = Outcome Blocked []
      [Ext ui_show_welcome_screen (Returns VNone);
       Ext utils_get_shodan_api (Returns (VStr "key"));
       Ext (console_input menu_prompt) (line "f");
       Ext ui_full_scan_menu
         (Returns (VTuple [VBool true; VStr "example.com"; VList [VStr "NO"];
                           VBool true]));
       Out console_clear;
       Ext (scan_full
              [("domain", VStr "example.com");
               ("country_codes", VList [VStr "NO"]);
               ("save", VBool true)]) (Returns VNone);
       Pending (ui_schedule_scan_menu
                  [("scan_type", VStr "full");
                   ("domain", VNone);
                   ("country_codes", VList []);
                   ("use_existing", VBool true);
                   ("save", VBool true)])].
Proof. vm_compute. reflexivity. Qed.

(** [menu_screen] never runs out of turns, whatever the replies. *)
Lemma menu_screen_never_diverges rs : res (menu_screen rs) ≠ Diverge.
Proof.
  destruct rs as [|[welcome|e] [|[api|e'] rs]];
    try (unfold menu_screen, bind; simpl; congruence).
  rewrite menu_screen_run, res_prepend. unfold finish; cbn [res].
  destruct (menu_turn_inv rs) as (_ & H & _ & Hd).
  destruct (res (menu_turn rs)) as [[[|v]|]|e| |]; try done.
  by destruct (H None eq_refl).
Qed.

(** C10.  The menu prompt matches commands without regard to case: a typed
    line that reads as a command once stripped and lowered (["D"] for
    ["d"]) is accepted as that command, and the run continues exactly as
    when the command is typed as such; an empty line is taken for the
    default, h, and the run continues exactly as when h is typed. *)
Theorem menu_prompt_ignores_case welcome api bad typed c rs :
  Forall (λ l, menu_choice l = None) bad →
  c ∈ commands →
  lower (strip typed) = c →
  let run x := menu_screen
                 (Returns welcome :: Returns api :: (line <$> bad) ++ line x :: rs) in
  let before x := prelude welcome api ++ reprompts bad
                  ++ [Ext (console_input menu_prompt) (line x)] in
  menu_choice typed = Some c
  ∧ menu_choice "D" = Some "d"
  ∧ run typed = prepend (before typed) (finish (guard (match_user_input c) rs))
  ∧ run c = prepend (before c) (finish (guard (match_user_input c) rs))
  ∧ menu_choice "" = Some "h"
  ∧ run "" = prepend (before "") (finish (guard (match_user_input "h") rs))
  ∧ run "h" = prepend (before "h") (finish (guard (match_user_input "h") rs)).
Proof.
  intros Hbad Hc Hl run before. subst run before. cbv beta.
  pose proof (menu_choice_lower _ _ Hc Hl) as Htyped.
  pose proof (menu_choice_verbatim _ Hc) as Hverb.
  split_and!; try done; by apply menu_screen_accept.
Qed.

Lemma menu_prompt_ignores_case_witness :
  menu_choice " Q" = Some "q"
  ∧ menu_screen [Returns VNone; Returns VNone; line "?"; line " Q"]
    = Outcome (Ok (VBool false)) []
        [Ext ui_show_welcome_screen (Returns VNone);
         Ext utils_get_shodan_api (Returns VNone);
         Out (console_print api_key_warning None);
         Ext (console_input menu_prompt) (line "?");
         Out (console_print illegal_choice_message None);
         Ext (console_input menu_prompt) (line " Q");
         Out goodbye].
Proof.
  destruct (menu_prompt_ignores_case VNone VNone ["?"] " Q" "q" [])
    as (H1 & _ & H2 & _).
  - repeat constructor.
  - unfold commands. rewrite !elem_of_cons. auto.
  - reflexivity.
  - split; [exact H1|]. refine (eq_trans H2 _). reflexivity.
Defined.

(* ------------------------------------------------------------------ *)
(** * More about [menu_screen] *)

(** ** The shape of the trace of a piece of code *)

Lemma settled_prepend {A} t (o : outcome A) :
  forallb tame t = true → settled o → settled (prepend t o).
Proof.
  intros Ht. unfold settled, prepend. cbn [res rest trace].
  destruct (res o) as [a|e| |]; [| | |done].
  - intros Ho. by rewrite forallb_app, Ht, Ho.
  - intros [Ho|(t0 & c & -> & Ht0)].
    + left. by rewrite forallb_app, Ht, Ho.
    + right. exists (t ++ t0), c. split; [by rewrite app_assoc|].
      by rewrite forallb_app, Ht, Ht0.
  - intros (t0 & c & -> & Ht0 & Hr). exists (t ++ t0), c.
    split_and!; [by rewrite app_assoc| |done].
    by rewrite forallb_app, Ht, Ht0.
Qed.

Lemma steady_ret {A} (a : A) : steady (ret a).
Proof. by intros rs. Qed.

Lemma steady_raise {A} e : steady (@raise A e).
Proof. intros rs. by left. Qed.

Lemma steady_emit o : o ≠ goodbye → steady (emit o).
Proof.
  intros Ho rs. unfold settled; simpl. by rewrite bool_decide_false.
Qed.

Lemma steady_do_call c : steady (do_call c).
Proof.
  intros [|[v|e] rs]; unfold settled; simpl.
  - by exists [], c.
  - done.
  - right. by exists [], c.
Qed.

Lemma steady_bind {A B} (m : M A) (k : A → M B) :
  steady m → (∀ a, steady (k a)) → steady (bind m k).
Proof.
  intros Hm Hk rs. specialize (Hm rs). unfold bind.
  destruct (m rs) as [[a|e| |] rs' t]; try done.
  cbn [res rest trace]. apply settled_prepend; [done|apply Hk].
Qed.

Lemma steady_unpack3 v : steady (unpack3 v).
Proof.
  unfold unpack3. destruct (iter_items v) as [[|a [|b [|c [|]]]]|];
    first [apply steady_ret | apply steady_raise].
Qed.

Lemma steady_unpack4 v : steady (unpack4 v).
Proof.
  unfold unpack4. destruct (iter_items v) as [[|a [|b [|c [|d [|]]]]]|];
    first [apply steady_ret | apply steady_raise].
Qed.

#[local] Hint Resolve steady_ret steady_raise steady_do_call steady_unpack3
  steady_unpack4 : runs.
#[local] Hint Extern 1 (steady (emit _)) => apply steady_emit; discriminate : runs.
#[local] Hint Extern 2 (steady (bind _ _)) => apply steady_bind; [|intros] : runs.
#[local] Hint Extern 3 (steady (if ?b then _ else _)) => destruct b : runs.
#[local] Hint Extern 3 (steady (let '(_, _) := ?x in _)) => destruct x : runs.

Lemma steady_discovery_scan : steady discovery_scan.
Proof. unfold discovery_scan. auto 20 with runs. Qed.

Lemma steady_full_scan : steady full_scan.
Proof. unfold full_scan. auto 20 with runs. Qed.

Lemma steady_help_screen : steady help_screen.
Proof.
  intros rs. rewrite help_screen_run. apply settled_prepend; [done|].
  destruct rs as [|[v|e] rs']; unfold settled; simpl.
  - by exists [], (console_input help_prompt).
  - destruct v; simpl; auto.
  - destruct e; simpl; try done; right; by eexists [], _.
Qed.

Lemma steady_view_exposure_loop : steady view_exposure_loop.
Proof.
  intros rs. induction rs as [|r rs IH].
  - by exists [], ui_view_exposure.
  - rewrite view_exposure_loop_cons. destruct r as [again|e].
    + destruct (truthy again); [by apply settled_prepend|done].
    + right. by exists [], ui_view_exposure.
Qed.

#[local] Hint Resolve steady_discovery_scan steady_full_scan steady_help_screen
  steady_view_exposure_loop : runs.

Lemma steady_match_user_input c :
  c = "h" ∨ c = "d" ∨ c = "v" ∨ c = "f" → steady (match_user_input c).
Proof.
  intros [->|[->|[->| ->]]]; unfold match_user_input; simpl; auto 10 with runs.
Qed.

(** ** The shape of the trace of [menu_screen] *)

Lemma menu_settled_prepend t o :
  forallb tame t = true → menu_settled o → menu_settled (prepend t o).
Proof.
  intros Ht. unfold menu_settled, prepend. cbn [res rest trace].
  destruct (res o) as [v|e| |]; [| | |done].
  - intros [[-> Ho]|(-> & t0 & Ht0 & Ho)].
    + left. by rewrite forallb_app, Ht, Ho.
    + right. split; [done|]. exists (t ++ t0).
      split; [by rewrite forallb_app, Ht, Ht0|].
      destruct Ho as [->|[c ->]]; [left|right; exists c]; by rewrite app_assoc.
  - intros [Ho|(t0 & c & -> & Ht0)].
    + left. by rewrite forallb_app, Ht, Ho.
    + right. exists (t ++ t0), c. split; [by rewrite app_assoc|].
      by rewrite forallb_app, Ht, Ht0.
  - intros (t0 & c & -> & Ht0 & Hr). exists (t ++ t0), c.
    split_and!; [by rewrite app_assoc| |done].
    by rewrite forallb_app, Ht, Ht0.
Qed.

Lemma guard_settled m rs :
  steady m → breaks m → menu_settled (finish (guard m rs)).
Proof.
  intros Hs Hb. specialize (Hs rs). specialize (Hb rs).
  unfold guard, try_except, finish, menu_settled, settled in *.
  destruct (m rs) as [[x|e| |] rs' t]; cbn [res rest trace] in *; [| |done..].
  - rewrite (Hb x eq_refl). by left.
  - destruct e; cbn [is_KeyboardInterrupt res rest trace prepend]; try done.
    right. split; [done|]. destruct Hs as [Hs|(t0 & c & -> & Ht0)].
    + exists t. split; [done|]. by left.
    + exists t0. split; [done|]. right. exists c. by rewrite <-app_assoc.
Qed.

Lemma menu_turn_settled rs : menu_settled (finish (menu_turn rs)).
Proof.
  induction rs as [|[v|e] rs IH].
  - rewrite menu_turn_blocked. by exists [], (console_input menu_prompt).
  - destruct v as [| |typed| |];
      try (rewrite menu_turn_not_str by done; by left).
    fold (line typed). destruct (menu_choice typed) as [c|] eqn:Hc.
    + rewrite (menu_turn_accept _ c), finish_prepend by done.
      apply menu_settled_prepend; [done|].
      destruct (menu_choice_cases _ _ Hc) as [->|[->|[->|[->| ->]]]];
        [| | | |rewrite match_user_input_q; right; split; [done|];
                exists []; split; [done|]; by left];
        (edestruct match_user_input_quiet as [_ Hb];
           [|apply guard_settled; [apply steady_match_user_input|exact Hb]];
         auto).
    + rewrite menu_turn_reject, finish_prepend by done.
      by apply menu_settled_prepend.
  - rewrite menu_turn_raises.
    destruct e; unfold menu_settled, finish; cbn [is_KeyboardInterrupt res trace];
      try (right; by eexists [], _).
    right. split; [done|]. exists []. split; [done|]. right. by eexists.
Qed.

Lemma forallb_tame_prelude welcome api : forallb tame (prelude welcome api) = true.
Proof. unfold prelude. by destruct (is_None api). Qed.

Lemma menu_screen_settled rs : menu_settled (menu_screen rs).
Proof.
  destruct rs as [|[welcome|e] rs].
  - by exists [], ui_show_welcome_screen.
  - destruct rs as [|[api|e] rs].
    + by exists [Ext ui_show_welcome_screen (Returns welcome)], utils_get_shodan_api.
    + rewrite menu_screen_run.
      apply menu_settled_prepend;
        [apply forallb_tame_prelude|apply menu_turn_settled].
    + right.
      by exists [Ext ui_show_welcome_screen (Returns welcome)], utils_get_shodan_api.
  - right. by exists [], ui_show_welcome_screen.
Qed.

(** A raising call that is not tame sits in the part of a trace that
    follows its tame events. *)
Lemma untamed_in_tail t0 tail t x t' :
  forallb tame t0 = true → tame x = false →
  t0 ++ tail = t ++ x :: t' →
  ∃ pre, tail = pre ++ x :: t'.
Proof.
  revert t. induction t0 as [|y t0 IH]; intros t Ht0 Hx Heq; simpl in *.
  - by exists t.
  - apply andb_true_iff in Ht0 as [Hy Ht0]. destruct t as [|z t]; simpl in *.
    + injection Heq as -> _. congruence.
    + injection Heq as _ Heq. by apply (IH t).
Qed.

Lemma says_goodbye_tame t : forallb tame t = true → says_goodbye t = false.
Proof.
  induction t as [|e t IH]; simpl; [done|].
  intros [He Ht]%andb_true_iff. rewrite IH by done.
  destruct e as [c r|c|o]; simpl in *; try done.
  by destruct (bool_decide (o = goodbye)).
Qed.

Lemma says_goodbye_app t1 t2 :
  says_goodbye (t1 ++ t2) = says_goodbye t1 || says_goodbye t2.
Proof. apply existsb_app. Qed.

Lemma one_is_snoc {A} (pre : list A) x t' a :
  [a] = pre ++ x :: t' → pre = [] ∧ x = a ∧ t' = [].
Proof. destruct pre as [|p [|q pre]]; simpl; intros [=]; by subst. Qed.

Lemma two_is_snoc {A} (pre : list A) x t' a b :
  [a; b] = pre ++ x :: t' →
  (pre = [] ∧ x = a ∧ t' = [b]) ∨ (pre = [a] ∧ x = b ∧ t' = []).
Proof.
  destruct pre as [|p [|q [|r pre]]]; simpl; intros [=]; subst; auto.
Qed.

Lemma tame_in_the_middle t x t' :
  forallb tame (t ++ x :: t') = true → tame x = true.
Proof.
  rewrite forallb_app. simpl. intros [_ [H _]%andb_true_iff]%andb_true_iff. done.
Qed.

(** X5.  A collaborator that raises is the last one called.  Whenever a
    call of a run of [menu_screen] raised (other than a [KeyboardInterrupt]
    at the prompt of the help screen, which [help_screen] catches), either
    nothing follows in the trace and [menu_screen] raises that very
    exception, or the exception is a [KeyboardInterrupt], only the goodbye
    message follows, and [menu_screen] returns [False]. *)
Theorem no_call_after_a_raise rs t c e t' :
  trace (menu_screen rs) = t ++ Ext c (Raises e) :: t' →
  is_help_prompt c && is_KeyboardInterrupt e = false →
  (t' = [] ∧ res (menu_screen rs) = Raise e)
  ∨ (e = KeyboardInterrupt ∧ t' = [Out goodbye]
     ∧ res (menu_screen rs) = Ok (VBool false)).
Proof.
  intros Heq Hx.
  assert (tame (Ext c (Raises e)) = false) as Hx' by done.
  pose proof (menu_screen_settled rs) as H. unfold menu_settled in H.
  rewrite Heq in H. destruct (res (menu_screen rs)) as [v|e0| |]; [| | |done].
  - destruct H as [[-> H]|(-> & t0 & Ht0 & [H|[c0 H]])].
    + apply tame_in_the_middle in H. congruence.
    + symmetry in H.
      destruct (untamed_in_tail _ _ _ _ _ Ht0 Hx' H) as [pre Hpre].
      by apply one_is_snoc in Hpre as (_ & [=] & _).
    + symmetry in H.
      destruct (untamed_in_tail _ _ _ _ _ Ht0 Hx' H) as [pre Hpre].
      apply two_is_snoc in Hpre as [(_ & [= <- <-] & ->)|(_ & [=] & _)].
      by right.
  - destruct H as [H|(t0 & c0 & H & Ht0)].
    + apply tame_in_the_middle in H. congruence.
    + symmetry in H.
      destruct (untamed_in_tail _ _ _ _ _ Ht0 Hx' H) as [pre Hpre].
      apply one_is_snoc in Hpre as (_ & [= <- <-] & ->). by left.
  - destruct H as (t0 & c0 & H & Ht0 & _). symmetry in H.
    destruct (untamed_in_tail _ _ _ _ _ Ht0 Hx' H) as [pre Hpre].
    by apply one_is_snoc in Hpre as (_ & [=] & _).
Qed.

Lemma no_call_after_a_raise_witness :
  res (menu_screen
         [Returns VNone; Returns VNone; line "d";
          Returns (VTuple [VStr "example.com"; VList []; VBool true]);
          Raises (OtherError "APIError"); Returns VNone])
  = Raise (OtherError "APIError").
Proof.
  destruct (no_call_after_a_raise
              [Returns VNone; Returns VNone; line "d";
               Returns (VTuple [VStr "example.com"; VList []; VBool true]);
               Raises (OtherError "APIError"); Returns VNone]
              [Ext ui_show_welcome_screen (Returns VNone);
               Ext utils_get_shodan_api (Returns VNone);
               Out (console_print api_key_warning None);
               Ext (console_input menu_prompt) (line "d");
               Ext ui_discovery_scan_menu
                 (Returns (VTuple [VStr "example.com"; VList []; VBool true]));
               Out console_clear]
              (scan_discovery
                 [("domain", VStr "example.com"); ("country_codes", VList []);
                  ("save", VBool true)])
              (OtherError "APIError") [])
    as [[_ H]|(H & _)].
  - reflexivity.
  - reflexivity.
  - exact H.
  - discriminate H.
Defined.

(** X6.  The goodbye message is printed exactly when [menu_screen] returns
    [False], and it is then the last thing that happens. *)
Theorem goodbye_exactly_on_False rs :
  says_goodbye (trace (menu_screen rs)) = true
  ↔ res (menu_screen rs) = Ok (VBool false)
    ∧ last (trace (menu_screen rs)) = Some (Out goodbye).
Proof.
  pose proof (menu_screen_settled rs) as H. unfold menu_settled in H.
  destruct (res (menu_screen rs)) as [v|e| |]; [| | |done].
  - destruct H as [[-> H]|(-> & t0 & Ht0 & [->|[c ->]])].
    + rewrite says_goodbye_tame by done. split; [done|]. by intros [[=] _].
    + rewrite last_snoc, says_goodbye_app, says_goodbye_tame by done.
      simpl. done.
    + change [Ext c (Raises KeyboardInterrupt); Out goodbye]
        with ([Ext c (Raises KeyboardInterrupt)] ++ [Out goodbye]).
      rewrite app_assoc, last_snoc, !says_goodbye_app, says_goodbye_tame by done.
      simpl. done.
  - split; [|by intros [[=] _]].
    destruct H as [H|(t0 & c & -> & Ht0)].
    + by rewrite says_goodbye_tame.
    + by rewrite says_goodbye_app, says_goodbye_tame.
  - split; [|by intros [[=] _]].
    destruct H as (t0 & c & -> & Ht0 & _).
    by rewrite says_goodbye_app, says_goodbye_tame.
Qed.

(** ** Complete runs of the commands *)

(** X1.  The help screen returns on any key: after h, whatever line is
    typed at the prompt of the help screen (an empty one too), and also a
    [KeyboardInterrupt] there, [help_screen] returns and [menu_screen]
    returns [True]; the help panel was printed on a cleared console and the
    prompt was asked once. *)
Theorem help_returns_on_any_key welcome api bad typed r rs :
  Forall (λ l, menu_choice l = None) bad →
  menu_choice typed = Some "h" →
  r = Raises KeyboardInterrupt ∨ (∃ key, r = line key) →
  menu_screen
    (Returns welcome :: Returns api :: (line <$> bad) ++ line typed :: r :: rs)
  = Outcome (Ok (VBool true)) rs
      (prelude welcome api ++ reprompts bad
       ++ [Ext (console_input menu_prompt) (line typed);
           Out console_clear;
           Out (console_print_Panel help_text "Help" "cyan bold" "left");
           Ext (console_input help_prompt) r]).
Proof.
  intros Hbad Hc Hr.
  rewrite (menu_screen_accept _ _ _ _ "h") by done.
  rewrite match_user_input_h.
  rewrite (guard_ok _ _ (Some Break) rs
             [Out console_clear;
              Out (console_print_Panel help_text "Help" "cyan bold" "left");
              Ext (console_input help_prompt) r]).
  2:{ unfold bind. rewrite help_screen_run.
      by destruct Hr as [->|[key ->]]. }
  rewrite finish_break. unfold prepend. cbn [res rest trace].
  by rewrite <-!app_assoc.
Qed.

Lemma help_returns_on_any_key_witness :
  menu_screen [Returns VNone; Returns (VStr "key"); line ""; line "quit"; line "q"]
  = Outcome (Ok (VBool true)) [line "q"]
      [Ext ui_show_welcome_screen (Returns VNone);
       Ext utils_get_shodan_api (Returns (VStr "key"));
       Ext (console_input menu_prompt) (line "");
       Out console_clear;
       Out (console_print_Panel help_text "Help" "cyan bold" "left");
       Ext (console_input help_prompt) (line "quit")].
Proof.
  apply (help_returns_on_any_key VNone (VStr "key") [] "" (line "quit") [line "q"]).
  - constructor.
  - reflexivity.
  - right. exists "quit". reflexivity.
Defined.

Lemma view_exposure_loop_run again stop rs :
  Forall (λ v, truthy v = true) again →
  truthy stop = false →
  view_exposure_loop ((Returns <$> again) ++ Returns stop :: rs)
  = Outcome (Ok tt) rs
      ((λ v, Ext ui_view_exposure (Returns v)) <$> again ++ [stop]).
Proof.
  intros Hagain Hstop. induction Hagain as [|v again Hv _ IH].
  - simpl. rewrite view_exposure_loop_cons. by rewrite Hstop.
  - rewrite fmap_cons, <-app_comm_cons, view_exposure_loop_cons, Hv, IH.
    reflexivity.
Qed.

(** X2.  The exposure view is shown again for as long as
    [ui.view_exposure()] returns a truthy value: after v, with [again] the
    truthy values it returns and [stop] the first falsy one,
    [ui.view_exposure()] is called once for each of them and no other call
    is made; [menu_screen] then returns [True]. *)
Theorem view_repeats_while_truthy welcome api bad typed again stop rs :
  Forall (λ l, menu_choice l = None) bad →
  menu_choice typed = Some "v" →
  Forall (λ v, truthy v = true) again →
  truthy stop = false →
  menu_screen
    (Returns welcome :: Returns api
     :: (line <$> bad) ++ line typed :: (Returns <$> again) ++ Returns stop :: rs)
  = Outcome (Ok (VBool true)) rs
      (prelude welcome api ++ reprompts bad
       ++ [Ext (console_input menu_prompt) (line typed)]
       ++ ((λ v, Ext ui_view_exposure (Returns v)) <$> again ++ [stop])).
Proof.
  intros Hbad Hc Hagain Hstop.
  rewrite (menu_screen_accept _ _ _ _ "v") by done.
  rewrite match_user_input_v.
  rewrite (guard_ok _ _ (Some Break) rs
             ((λ v, Ext ui_view_exposure (Returns v)) <$> again ++ [stop])).
  2:{ unfold bind. rewrite view_exposure_loop_run by done.
      unfold prepend; simpl. by rewrite app_nil_r. }
  rewrite finish_break. unfold prepend. cbn [res rest trace].
  by rewrite <-!app_assoc.
Qed.

Lemma view_repeats_while_truthy_witness :
  menu_screen
    [Returns VNone; Returns (VStr "key"); line "v";
     Returns (VBool true); Returns (VStr "again"); Returns VNone; line "q"]
  = Outcome (Ok (VBool true)) [line "q"]
      [Ext ui_show_welcome_screen (Returns VNone);
       Ext utils_get_shodan_api (Returns (VStr "key"));
       Ext (console_input menu_prompt) (line "v");
       Ext ui_view_exposure (Returns (VBool true));
       Ext ui_view_exposure (Returns (VStr "again"));
       Ext ui_view_exposure (Returns VNone)].
Proof.
  apply (view_repeats_while_truthy VNone (VStr "key") [] "v"
           [VBool true; VStr "again"] VNone [line "q"]).
  - constructor.
  - reflexivity.
  - repeat constructor.
  - reflexivity.
Defined.

(** X3.  A discovery scan that runs to its end: with a truthy domain and
    every collaborator returning, [menu_screen] calls [scan.discovery],
    hands the same arguments to [ui.schedule_scan_menu], waits for Enter,
    shows the exposure once (whatever [ui.view_exposure()] returns) and
    returns [True]. *)
Theorem discovery_scan_runs_to_the_end
    welcome api bad typed r domain country_codes save
    scanned scheduled entered viewed rs :
  Forall (λ l, menu_choice l = None) bad →
  menu_choice typed = Some "d" →
  iter_items r = Some [domain; country_codes; save] →
  truthy domain = true →
  menu_screen
    (Returns welcome :: Returns api
     :: (line <$> bad) ++ line typed :: Returns r
     :: Returns scanned :: Returns scheduled :: Returns entered
     :: Returns viewed :: rs)
  = Outcome (Ok (VBool true)) rs
      (prelude welcome api ++ reprompts bad
       ++ [Ext (console_input menu_prompt) (line typed);
           Ext ui_discovery_scan_menu (Returns r);
           Out console_clear;
           Ext (scan_discovery
                  [("domain", domain); ("country_codes", country_codes);
                   ("save", save)]) (Returns scanned);
           Ext (ui_schedule_scan_menu
                  [("scan_type", VStr "discovery"); ("domain", domain);
                   ("country_codes", country_codes); ("save", save)])
             (Returns scheduled);
           Ext (input "Press Enter to continue...") (Returns entered);
           Ext ui_view_exposure (Returns viewed)]).
Proof.
  intros Hbad Hc Hr Hd.
  rewrite (menu_screen_accept _ _ _ _ "d") by done.
  rewrite match_user_input_d.
  erewrite guard_ok.
  2:{ rewrite (discovery_scan_menu_run _ _ _ _ _ Hr), Hd. reflexivity. }
  rewrite finish_break. unfold prepend. cbn [res rest trace].
  by rewrite <-!app_assoc.
Qed.

Lemma discovery_scan_runs_to_the_end_witness :
  res (menu_screen
         [Returns VNone; Returns (VStr "key"); line "d";
          Returns (VTuple [VStr "example.com"; VList [VStr "NO"]; VBool true]);
          Returns VNone; Returns VNone; Returns (VStr ""); Returns (VBool true)])
  = Ok (VBool true).
Proof.
  refine (f_equal res
            (discovery_scan_runs_to_the_end VNone (VStr "key") [] "d"
               (VTuple [VStr "example.com"; VList [VStr "NO"]; VBool true])
               (VStr "example.com") (VList [VStr "NO"]) (VBool true)
               VNone VNone (VStr "") (VBool true) [] _ _ _ _)).
  - constructor.
  - reflexivity.
  - reflexivity.
  - reflexivity.
Defined.

(** X4.  A full scan that runs to its end: with exactly one of domain and
    [use_existing] truthy and every collaborator returning, [menu_screen]
    calls [scan.full] (on the domain with its country codes, or on the
    existing exposure), hands [ui.schedule_scan_menu] the matching
    snapshot, waits for Enter, shows the exposure once and returns [True]. *)
Theorem full_scan_runs_to_the_end
    welcome api bad typed r use_existing domain country_codes save
    scanned scheduled entered viewed rs :
  Forall (λ l, menu_choice l = None) bad →
  menu_choice typed = Some "f" →
  iter_items r = Some [use_existing; domain; country_codes; save] →
  truthy domain = negb (truthy use_existing) →
  menu_screen
    (Returns welcome :: Returns api
     :: (line <$> bad) ++ line typed :: Returns r
     :: Returns scanned :: Returns scheduled :: Returns entered
     :: Returns viewed :: rs)
  = Outcome (Ok (VBool true)) rs
      (prelude welcome api ++ reprompts bad
       ++ [Ext (console_input menu_prompt) (line typed);
           Ext ui_full_scan_menu (Returns r);
           Out console_clear;
           Ext (scan_full
                  (if truthy domain
                   then [("domain", domain); ("country_codes", country_codes);
                         ("save", save)]
                   else [("use_existing", use_existing); ("save", save)]))
             (Returns scanned);
           Ext (ui_schedule_scan_menu
                  (if truthy domain
                   then [("scan_type", VStr "full"); ("domain", domain);
                         ("country_codes", country_codes);
                         ("use_existing", use_existing); ("save", save)]
                   else [("scan_type", VStr "full"); ("domain", VNone);
                         ("country_codes", VList []);
                         ("use_existing", use_existing); ("save", save)]))
             (Returns scheduled);
           Ext (input "Press Enter to continue...") (Returns entered);
           Ext ui_view_exposure (Returns viewed)]).
Proof.
  intros Hbad Hc Hr Hx.
  rewrite (menu_screen_accept _ _ _ _ "f") by done.
  rewrite match_user_input_f.
  destruct (truthy use_existing) eqn:Hu; cbn [negb] in Hx;
    (erewrite guard_ok;
       [|rewrite (full_scan_menu_run _ _ _ _ _ _ Hr), Hx, Hu; reflexivity]);
    rewrite finish_break; unfold prepend; cbn [res rest trace];
    by rewrite <-!app_assoc, Hx.
Qed.

Lemma full_scan_runs_to_the_end_witness :
  res (menu_screen
         [Returns VNone; Returns (VStr "key"); line "F";
          Returns (VTuple [VBool true; VNone; VList []; VBool true]);
          Returns VNone; Returns VNone; Returns (VStr ""); Returns VNone])
  = Ok (VBool true).
Proof.
  refine (f_equal res
            (full_scan_runs_to_the_end VNone (VStr "key") [] "F"
               (VTuple [VBool true; VNone; VList []; VBool true])
               (VBool true) VNone (VList []) (VBool true)
               VNone VNone (VStr "") VNone [] _ _ _ _)).
  - constructor.
  - reflexivity.
  - reflexivity.
  - reflexivity.
Defined.

(** ** What the menu prompt accepts *)

(* ------------------------------------------------------------------ *)
(** * Facts about the exposure engine *)

Import Engine.

(** ** Union-merge of scalars and of keyed sets *)

Lemma merge_scalar_idem {A} (x : option A) : merge_scalar x x = x.
Proof. by destruct x. Qed.

Lemma merge_scalar_absorb {A} (x y : option A) :
  merge_scalar (merge_scalar x y) y = merge_scalar x y.
Proof. by destruct y. Qed.

Lemma merge_scalar_is_Some {A} (x y : option A) :
  is_Some x → is_Some (merge_scalar x y).
Proof. by destruct y. Qed.

Section keyed.
Context `{Countable K} {A : Type} (f : A → A → A).
Implicit Types m : gmap K A.

Lemma lookup_merge_keyed m1 m2 k :
  merge_keyed f m1 m2 !! k
  = match m1 !! k, m2 !! k with
    | Some a, Some b => Some (f a b)
    | Some a, None => Some a
    | None, o => o
    end.
Proof.
  unfold merge_keyed. rewrite lookup_union_with.
  by destruct (m1 !! k), (m2 !! k).
Qed.

Lemma dom_merge_keyed m1 m2 : dom (merge_keyed f m1 m2) = dom m1 ∪ dom m2.
Proof.
  apply set_eq. intros k.
  rewrite elem_of_union, !elem_of_dom, lookup_merge_keyed.
  destruct (m1 !! k), (m2 !! k); split; intros; eauto;
    destruct_or?; by try match goal with H : is_Some None |- _ => destruct H end.
Qed.

Lemma merge_keyed_idem m : (∀ a, f a a = a) → merge_keyed f m m = m.
Proof.
  intros Hf. apply map_eq. intros k. rewrite lookup_merge_keyed.
  destruct (m !! k); by rewrite ?Hf.
Qed.

Lemma merge_keyed_absorb m1 m2 :
  (∀ a b, f (f a b) b = f a b) → (∀ a, f a a = a) →
  merge_keyed f (merge_keyed f m1 m2) m2 = merge_keyed f m1 m2.
Proof.
  intros Hf Hi. apply map_eq. intros k. rewrite !lookup_merge_keyed.
  destruct (m1 !! k), (m2 !! k); by rewrite ?Hf, ?Hi.
Qed.

(** A record of the old side stays, merged or as it was. *)
Lemma merge_keyed_keeps m1 m2 k a :
  m1 !! k = Some a →
  ∃ a', merge_keyed f m1 m2 !! k = Some a'
        ∧ (a' = a ∨ ∃ b, m2 !! k = Some b ∧ a' = f a b).
Proof.
  intros Ha. rewrite lookup_merge_keyed, Ha.
  destruct (m2 !! k) as [b|].
  - exists (f a b). split; [done|]. right. by exists b.
  - exists a. split; [done|]. by left.
Qed.
End keyed.

(** ** Union-merge of records: merging the same record again changes
    nothing *)

Lemma merge_ASN_absorb a b : merge_ASN (merge_ASN a b) b = merge_ASN a b.
Proof. unfold merge_ASN; simpl. by rewrite !merge_scalar_absorb. Qed.

Lemma merge_ASN_idem a : merge_ASN a a = a.
Proof. destruct a. unfold merge_ASN; simpl. by rewrite !merge_scalar_idem. Qed.

Lemma merge_Host_absorb a b : merge_Host (merge_Host a b) b = merge_Host a b.
Proof.
  unfold merge_Host; simpl. rewrite merge_scalar_absorb. f_equal.
  by rewrite <-(assoc_L (∪)), (idemp_L (∪)).
Qed.

Lemma merge_Host_idem a : merge_Host a a = a.
Proof.
  destruct a. unfold merge_Host; simpl. rewrite merge_scalar_idem.
  f_equal. apply (idemp_L (∪)).
Qed.

Lemma merge_Port_absorb a b : merge_Port (merge_Port a b) b = merge_Port a b.
Proof. unfold merge_Port; simpl. by rewrite !merge_scalar_absorb. Qed.

Lemma merge_Port_idem a : merge_Port a a = a.
Proof. destruct a. unfold merge_Port; simpl. by rewrite !merge_scalar_idem. Qed.

Lemma merge_Vulnerability_absorb a b :
  merge_Vulnerability (merge_Vulnerability a b) b = merge_Vulnerability a b.
Proof. unfold merge_Vulnerability; simpl. by rewrite !merge_scalar_absorb. Qed.

Lemma merge_Vulnerability_idem a : merge_Vulnerability a a = a.
Proof.
  destruct a. unfold merge_Vulnerability; simpl. by rewrite !merge_scalar_idem.
Qed.

Lemma merge_IP_absorb a b : merge_IP (merge_IP a b) b = merge_IP a b.
Proof.
  unfold merge_IP; simpl. rewrite merge_scalar_absorb.
  rewrite !merge_keyed_absorb
    by auto using merge_Port_absorb, merge_Port_idem,
         merge_Vulnerability_absorb, merge_Vulnerability_idem.
  f_equal. by rewrite <-(assoc_L (∪)), (idemp_L (∪)).
Qed.

Lemma merge_IP_idem a : merge_IP a a = a.
Proof.
  destruct a. unfold merge_IP; simpl. rewrite merge_scalar_idem.
  rewrite !merge_keyed_idem
    by auto using merge_Port_idem, merge_Vulnerability_idem.
  f_equal. apply (idemp_L (∪)).
Qed.

Lemma merge_exposure_absorb old E :
  merge_exposure (merge_exposure old E) E = merge_exposure old E.
Proof.
  unfold merge_exposure; simpl. rewrite !merge_scalar_absorb.
  by rewrite !merge_keyed_absorb
    by auto using merge_ASN_absorb, merge_ASN_idem, merge_Host_absorb,
         merge_Host_idem, merge_IP_absorb, merge_IP_idem.
Qed.

Lemma merge_exposure_idem E : merge_exposure E E = E.
Proof.
  destruct E. unfold merge_exposure; simpl. rewrite !merge_scalar_idem.
  by rewrite !merge_keyed_idem
    by auto using merge_ASN_idem, merge_Host_idem, merge_IP_idem.
Qed.

(** C3.  [upsertMerge] is idempotent: storing the same exposure a second
    time leaves the store as the first time left it, whatever the store
    held before. *)
Theorem upsertMerge_idempotent E (store : gmap string Exposure) :
  upsertMerge E (upsertMerge E store) = upsertMerge E store.
Proof.
  unfold upsertMerge at 2 3.
  destruct (store !! domain E) as [old|] eqn:Hold; unfold upsertMerge.
  - rewrite lookup_insert_eq, insert_insert_eq.
    by rewrite merge_exposure_absorb.
  - rewrite lookup_insert_eq, insert_insert_eq.
    by rewrite merge_exposure_idem.
Qed.

(** ** Merging never deletes *)

Lemma Host_le_refl x : Host_le x x.
Proof. by split. Qed.

Lemma Host_le_trans x y z : Host_le x y → Host_le y z → Host_le x z.
Proof. intros [H1 H2] [H3 H4]. split; [auto|]. by transitivity (host_ips y). Qed.

Lemma Host_le_merge x y : Host_le x (merge_Host x y).
Proof.
  split; simpl; [apply merge_scalar_is_Some|]. apply union_subseteq_l.
Qed.

Lemma IP_le_refl x : IP_le x x.
Proof. by split_and!. Qed.

Lemma IP_le_trans x y z : IP_le x y → IP_le y z → IP_le x z.
Proof.
  intros (H1 & H2 & H3 & H4) (H5 & H6 & H7 & H8). split_and!; [auto|..].
  - by transitivity (dom (ip_ports y)).
  - by transitivity (dom (ip_vulns y)).
  - by transitivity (ip_tags y).
Qed.

Lemma IP_le_merge x y : IP_le x (merge_IP x y).
Proof.
  split_and!; simpl; [apply merge_scalar_is_Some|..];
    rewrite ?dom_merge_keyed; apply union_subseteq_l.
Qed.

Lemma Exposure_le_refl E : Exposure_le E E.
Proof.
  split_and!; [done..| |]; intros k x Hx; exists x;
    eauto using Host_le_refl, IP_le_refl.
Qed.

Lemma Exposure_le_trans E1 E2 E3 :
  Exposure_le E1 E2 → Exposure_le E2 E3 → Exposure_le E1 E3.
Proof.
  intros (H1 & H2 & H3 & H4) (H5 & H6 & H7 & H8). split_and!.
  - congruence.
  - by transitivity (dom (asns E2)).
  - intros h x Hx. destruct (H3 _ _ Hx) as (y & Hy & Hxy).
    destruct (H7 _ _ Hy) as (z & Hz & Hyz). eauto using Host_le_trans.
  - intros a x Hx. destruct (H4 _ _ Hx) as (y & Hy & Hxy).
    destruct (H8 _ _ Hy) as (z & Hz & Hyz). eauto using IP_le_trans.
Qed.

Lemma merge_fragment_le E F : Exposure_le E (merge_fragment E F).
Proof.
  split_and!; simpl; [done|..].
  - rewrite dom_merge_keyed. apply union_subseteq_l.
  - intros h x Hx.
    destruct (merge_keyed_keeps merge_Host _ (f_hosts F) _ _ Hx)
      as (x' & Hx' & [->|(y & _ & ->)]);
      eauto using Host_le_refl, Host_le_merge.
  - intros a x Hx.
    destruct (merge_keyed_keeps merge_IP _ (f_ips F) _ _ Hx)
      as (x' & Hx' & [->|(y & _ & ->)]);
      eauto using IP_le_refl, IP_le_merge.
Qed.

Lemma merge_exposure_le old E : Exposure_le old (merge_exposure old E).
Proof.
  split_and!; simpl; [done|..].
  - rewrite dom_merge_keyed. apply union_subseteq_l.
  - intros h x Hx.
    destruct (merge_keyed_keeps merge_Host _ (hosts E) _ _ Hx)
      as (x' & Hx' & [->|(y & _ & ->)]);
      eauto using Host_le_refl, Host_le_merge.
  - intros a x Hx.
    destruct (merge_keyed_keeps merge_IP _ (ips E) _ _ Hx)
      as (x' & Hx' & [->|(y & _ & ->)]);
      eauto using IP_le_refl, IP_le_merge.
Qed.

Lemma foldl_merge_fragment_le fragments E :
  Exposure_le E (foldl merge_fragment E fragments).
Proof.
  revert E. induction fragments as [|F fragments IH]; intros E; simpl.
  - apply Exposure_le_refl.
  - eapply Exposure_le_trans; [apply merge_fragment_le|apply IH].
Qed.

Lemma aggregate_le E arrived : Exposure_le E (aggregate E arrived).
Proof. apply foldl_merge_fragment_le. Qed.

(** Saving an exposure deletes nothing from what the store holds. *)
Lemma upsertMerge_keeps E (store : gmap string Exposure) d old :
  store !! d = Some old →
  ∃ new, upsertMerge E store !! d = Some new ∧ Exposure_le old new.
Proof.
  intros Hold. unfold upsertMerge. destruct (decide (domain E = d)) as [<-|Hne].
  - rewrite Hold, lookup_insert_eq. eauto using merge_exposure_le.
  - destruct (store !! domain E); rewrite lookup_insert_ne by done;
      eauto using Exposure_le_refl.
Qed.

(** C4.  A full scan merges what the sources answer into the exposure it
    is applied to: every host and every IP of the exposure is still there
    afterwards and has only gained attributes (resolved addresses, ports,
    vulnerabilities, source tags), and saving the result deletes nothing
    from a stored exposure. *)
Theorem full_scan_never_deletes E arrived :
  let E' := aggregate E arrived in
  dom (hosts E) ⊆ dom (hosts E')
  ∧ dom (ips E) ⊆ dom (ips E')
  ∧ (∀ h x, hosts E !! h = Some x →
            ∃ x', hosts E' !! h = Some x' ∧ Host_le x x')
  ∧ (∀ a x, ips E !! a = Some x →
            ∃ x', ips E' !! a = Some x' ∧ IP_le x x')
  ∧ (∀ (store : gmap string Exposure) d old,
       store !! d = Some old →
       ∃ new, upsertMerge E' store !! d = Some new ∧ Exposure_le old new).
Proof.
  intros E'. destruct (aggregate_le E arrived) as (_ & _ & Hh & Hi).
  split_and!; [| |done|done|].
  - intros h [x Hx]%elem_of_dom. destruct (Hh _ _ Hx) as (x' & Hx' & _).
    apply elem_of_dom. eauto.
  - intros a [x Hx]%elem_of_dom. destruct (Hi _ _ Hx) as (x' & Hx' & _).
    apply elem_of_dom. eauto.
  - intros store d old. apply upsertMerge_keeps.
Qed.

Lemma full_scan_never_deletes_witness :
  ∃ x', ips (aggregate example_discovered [example_detail "nginx"])
          !! "93.184.216.34" = Some x'
        ∧ IP_le example_ip x'.
Proof.
  destruct (full_scan_never_deletes example_discovered [example_detail "nginx"])
    as (_ & _ & _ & H & _).
  apply (H "93.184.216.34" example_ip). reflexivity.
Defined.

(** ** Merge order *)



Section swap.
Context `{Countable K} {A : Type} (f : A → A → A) (g : A → A).
Implicit Types m : gmap K A.


End swap.







(** ** The record merged in wins *)


















(* ------------------------------------------------------------------ *)
(** * Facts about interrupted output *)

Module InterruptsFacts.
Import Interrupts.
Local Open Scope live_scope.

Lemma steps_prepend_nil {A} (o : outcome A) : prepend [] o = o.
Proof. by destruct o. Qed.

Lemma steps_prepend_prepend {A} t1 t2 (o : outcome A) :
  prepend t1 (prepend t2 o) = prepend (t1 ++ t2) o.
Proof. unfold prepend; simpl. by rewrite app_assoc. Qed.

Lemma loop_fuel_S {R} n (body : M (option R)) rs :
  while_fuel (S n) body rs
  = match res (body rs) with
    | Ok None => prepend (trace (body rs)) (while_fuel n body (rest (body rs)))
    | Ok (Some r) => Outcome (Ok r) (rest (body rs)) (trace (body rs))
    | Raise e => Outcome (Raise e) (rest (body rs)) (trace (body rs))
    | Blocked => Outcome Blocked (rest (body rs)) (trace (body rs))
    | Diverge => Outcome Diverge (rest (body rs)) (trace (body rs))
    end.
Proof. reflexivity. Qed.

(** A loop whose turns each take a reply has fuel enough with any number
    of turns above the number of replies. *)
Lemma loop_fuel_enough {R} (body : M (option R)) :
  (∀ rs, res (body rs) = Ok None → length (rest (body rs)) < length rs) →
  ∀ n m rs, length rs < n → length rs < m →
  while_fuel n body rs = while_fuel m body rs.
Proof.
  intros Hb n. induction n as [|n IH]; intros m rs Hn Hm; [lia|].
  destruct m as [|m]; [lia|]. rewrite !loop_fuel_S.
  specialize (Hb rs).
  destruct (body rs) as [[[r|]|e| |] rs' t]; simpl in *; try done.
  f_equal. specialize (Hb eq_refl). apply IH; lia.
Qed.

(** ** The prompt, one typed line at a time *)

Section live_prompt.
Context (p : string) (ch : option (list string)) (cs : bool) (d : option string).

Lemma ask_turn_takes_a_reply rs :
  res (ask_turn p ch cs d rs) = Ok None →
  length (rest (ask_turn p ch cs d rs)) < length rs.
Proof.
  unfold ask_turn, bind, do_call, emit, perform.
  destruct rs as [|[v|e] rs]; simpl; try done.
  destruct v; simpl; try done.
  destruct (accept ch cs d s); simpl; try done.
  destruct rs as [|[v'|e'] rs]; simpl; try done. lia.
Qed.

Lemma asking_blocked :
  Prompt_ask p ch cs d [] = Outcome Blocked [] [Awaits (Call (console_input p))].
Proof. reflexivity. Qed.

Lemma asking_raises e rs :
  Prompt_ask p ch cs d (Raises e :: rs)
  = Outcome (Raise e) rs [Did (Call (console_input p)) (Raises e)].
Proof. reflexivity. Qed.

Lemma asking_accept typed r rs :
  accept ch cs d typed = Some r →
  Prompt_ask p ch cs d (line typed :: rs)
  = Outcome (Ok r) rs [Did (Call (console_input p)) (line typed)].
Proof.
  intros H. unfold Prompt_ask, while_True, ask_turn, line. simpl.
  unfold bind at 1. simpl. rewrite H. reflexivity.
Qed.

Lemma asking_not_str v rs :
  (∀ s, v ≠ VStr s) →
  Prompt_ask p ch cs d (Returns v :: rs)
  = Outcome (Raise AttributeError) rs [Did (Call (console_input p)) (Returns v)].
Proof.
  intros H. unfold Prompt_ask, while_True, ask_turn. simpl.
  unfold bind at 1. simpl. destruct v; try done. by destruct (H s).
Qed.

(** A refused line is reported; the report is an output, and the prompt
    asks again when it was written. *)
Lemma asking_reject typed rs :
  accept ch cs d typed = None →
  Prompt_ask p ch cs d (line typed :: rs)
  = match rs with
    | [] =>
        Outcome Blocked []
          [Did (Call (console_input p)) (line typed);
           Awaits (Print (console_print illegal_choice_message None))]
    | Returns v :: rs' =>
        prepend
          [Did (Call (console_input p)) (line typed);
           Did (Print (console_print illegal_choice_message None)) (Returns v)]
          (Prompt_ask p ch cs d rs')
    | Raises e :: rs' =>
        Outcome (Raise e) rs'
          [Did (Call (console_input p)) (line typed);
           Did (Print (console_print illegal_choice_message None)) (Raises e)]
    end.
Proof.
  intros H. unfold Prompt_ask, while_True. cbn [length]. rewrite loop_fuel_S.
  destruct rs as [|[v|e] rs'].
  - unfold ask_turn, bind, do_call, emit, perform, line; simpl. by rewrite H.
  - assert (ask_turn p ch cs d (line typed :: Returns v :: rs')
            = Outcome (Ok None) rs'
                [Did (Call (console_input p)) (line typed);
                 Did (Print (console_print illegal_choice_message None))
                   (Returns v)]) as ->.
    { unfold ask_turn, bind, do_call, emit, perform, line; simpl. by rewrite H. }
    cbn [res rest trace length]. f_equal.
    apply loop_fuel_enough; [apply ask_turn_takes_a_reply|lia..].
  - unfold ask_turn, bind, do_call, emit, perform, line; simpl. by rewrite H.
Qed.
End live_prompt.

(** ** Pieces that run quietly *)

Lemma steps_not_interrupted {A} (m : M A) rs :
  quiet m → res (m rs) ≠ Raise KeyboardInterrupt → interrupted (trace (m rs)) = false.
Proof.
  intros Hm Hr. destruct (Hm rs) as ([_ H] & _).
  destruct (interrupted (trace (m rs))); [|done]. by destruct Hr; apply H.
Qed.

Lemma steps_quiet_ret {A} (a : A) : quiet (ret a).
Proof. intros rs. simpl. split_and!; [split|..]; done. Qed.

Lemma steps_quiet_raise {A} e : e ≠ KeyboardInterrupt → quiet (@raise A e).
Proof. intros He rs. simpl. split_and!; [split|..]; [congruence|done..]. Qed.

Lemma steps_quiet_do_call c :
  is_menu_prompt c = false → is_help_prompt c = false → quiet (do_call c).
Proof.
  intros Hm Hh [|[v|e] rs]; unfold do_call, perform; simpl.
  - split_and!; [split|..]; done.
  - unfold selected; simpl. rewrite Hm.
    split_and!; [split| | |]; try done. by destruct v.
  - unfold interrupted; simpl. rewrite Hh.
    split_and!; [split| | |]; try done; destruct e; simpl; congruence.
Qed.

Lemma steps_quiet_emit o : o ≠ goodbye → quiet (emit o).
Proof.
  intros Ho [|[v|e] rs]; unfold emit, bind, perform; simpl;
    rewrite (bool_decide_false _ Ho).
  - split_and!; [split|..]; done.
  - split_and!; [split|..]; done.
  - unfold interrupted; simpl.
    split_and!; [split| | |]; try done; destruct e; simpl; congruence.
Qed.

Lemma steps_quiet_bind {A B} (m : M A) (k : A → M B) :
  quiet m → (∀ a, quiet (k a)) → quiet (bind m k).
Proof.
  intros Hm Hk rs. pose proof (steps_not_interrupted m rs Hm) as Hni.
  destruct (Hm rs) as (Hi & Hs & Hg & Hd). unfold bind.
  destruct (m rs) as [[a|e| |] rs' t]; simpl in *; [| | |done].
  - destruct (Hk a rs') as (Hi' & Hs' & Hg' & Hd').
    unfold interrupted, selected in *.
    rewrite !existsb_app, Hs, Hs', Hg, Hg', Hni by done. done.
  - split_and!; [split|done..].
    + intros [= ->]. by apply Hi.
    + intros H%Hi. by injection H as ->.
  - split_and!; [split|done..]; [done|]. by intros H%Hi.
Qed.

Lemma steps_breaks_ret : breaks (ret (Some Break)).
Proof. by intros rs x [= <-]. Qed.

Lemma steps_breaks_bind {A} (m : M A) k : (∀ a, breaks (k a)) → breaks (bind m k).
Proof.
  intros Hk rs x. unfold bind.
  destruct (m rs) as [[a|e| |] rs' t]; simpl; try done. apply Hk.
Qed.

Lemma steps_quiet_unpack3 v : quiet (unpack3 v).
Proof.
  unfold unpack3. destruct (iter_items v) as [[|a [|b [|c [|]]]]|];
    first [apply steps_quiet_ret | by apply steps_quiet_raise].
Qed.

Lemma steps_quiet_unpack4 v : quiet (unpack4 v).
Proof.
  unfold unpack4. destruct (iter_items v) as [[|a [|b [|c [|d [|]]]]]|];
    first [apply steps_quiet_ret | by apply steps_quiet_raise].
Qed.

Create HintDb live discriminated.
#[local] Hint Resolve steps_quiet_ret steps_quiet_unpack3 steps_quiet_unpack4
  steps_breaks_ret : live.
#[local] Hint Extern 1 (quiet (do_call _)) =>
  apply steps_quiet_do_call; reflexivity : live.
#[local] Hint Extern 1 (quiet (emit _)) =>
  apply steps_quiet_emit; discriminate : live.
#[local] Hint Extern 1 (quiet (raise _)) =>
  apply steps_quiet_raise; discriminate : live.
#[local] Hint Extern 2 (quiet (bind _ _)) => apply steps_quiet_bind; [|intros] : live.
#[local] Hint Extern 2 (breaks (bind _ _)) => apply steps_breaks_bind; intros : live.
#[local] Hint Extern 3 (quiet (if ?b then _ else _)) => destruct b : live.
#[local] Hint Extern 3 (breaks (if ?b then _ else _)) => destruct b : live.
#[local] Hint Extern 3 (quiet (let '(_, _) := ?x in _)) => destruct x : live.
#[local] Hint Extern 3 (breaks (let '(_, _) := ?x in _)) => destruct x : live.

Lemma steps_quiet_discovery_scan : quiet discovery_scan.
Proof. unfold discovery_scan. auto 20 with live. Qed.

Lemma steps_breaks_discovery_scan : breaks discovery_scan.
Proof. unfold discovery_scan. auto 20 with live. Qed.

Lemma steps_quiet_full_scan : quiet full_scan.
Proof. unfold full_scan. auto 20 with live. Qed.

Lemma steps_breaks_full_scan : breaks full_scan.
Proof. unfold full_scan. auto 20 with live. Qed.

(** The prompt of the help screen accepts whatever is typed; an interrupt
    there is caught. *)
Lemma steps_quiet_help_prompt :
  quiet (try_except (Prompt_ask help_prompt None true None >> ret VNone)
           is_KeyboardInterrupt (ret VNone)).
Proof.
  intros rs. unfold try_except, bind.
  destruct rs as [|[v|e] rs'].
  - rewrite asking_blocked. simpl. split_and!; [split|..]; done.
  - destruct v as [| |typed| |];
      try (rewrite asking_not_str by done; simpl; split_and!; [split|..]; done).
    fold (line typed).
    rewrite (asking_accept _ _ _ _ typed (strip typed)) by done.
    simpl. split_and!; [split|..]; done.
  - rewrite asking_raises.
    destruct e; simpl; split_and!; [split|..]; done.
Qed.

Lemma steps_quiet_help_screen : quiet help_screen.
Proof.
  unfold help_screen.
  apply steps_quiet_bind; [apply steps_quiet_emit; discriminate|intros _].
  apply steps_quiet_bind; [apply steps_quiet_emit; discriminate|intros _].
  apply steps_quiet_help_prompt.
Qed.

Lemma viewing_cons r rs :
  view_exposure_loop (r :: rs)
  = match r with
    | Returns again =>
        if truthy again
        then prepend [Did (Call ui_view_exposure) r] (view_exposure_loop rs)
        else Outcome (Ok tt) rs [Did (Call ui_view_exposure) r]
    | Raises e => Outcome (Raise e) rs [Did (Call ui_view_exposure) r]
    end.
Proof.
  unfold view_exposure_loop, while_True. cbn [length]. rewrite loop_fuel_S.
  destruct r as [again|e]; [|done]. unfold bind, do_call, perform; simpl.
  by destruct (truthy again).
Qed.

Lemma steps_quiet_view_exposure_loop : quiet view_exposure_loop.
Proof.
  intros rs. induction rs as [|r rs IH].
  - split_and!; [split|..]; done.
  - rewrite viewing_cons. destruct r as [again|e].
    + destruct IH as (Hi & Hs & Hg & Hd).
      destruct (truthy again).
      * unfold prepend, selected, interrupted in *. cbn [res trace].
        rewrite !existsb_app, Hs, Hg. cbn [existsb orb interrupts says_goodbye].
        split_and!; try done. by destruct again.
      * cbn [res trace]. split_and!; [split|..]; try done. by destruct again.
    + destruct e; cbn [res trace]; split_and!; [split|..]; done.
Qed.

#[local] Hint Resolve steps_quiet_help_screen steps_quiet_view_exposure_loop
  steps_quiet_discovery_scan steps_quiet_full_scan
  steps_breaks_discovery_scan steps_breaks_full_scan : live.

(** Every command but [q] runs quietly and ends the turn by [break]. *)
Lemma commands_run_quietly c :
  c = "h" ∨ c = "d" ∨ c = "v" ∨ c = "f" →
  quiet (match_user_input c) ∧ breaks (match_user_input c).
Proof.
  intros [->|[->|[->| ->]]]; unfold match_user_input; simpl;
    split; auto 10 with live.
Qed.

(** ** One turn of the menu loop *)

Lemma guarding_bind {A} (m : M A) k rs :
  guard (bind m k) rs
  = match res (m rs) with
    | Ok a => prepend (trace (m rs)) (guard (k a) (rest (m rs)))
    | Raise e =>
        if is_KeyboardInterrupt e
        then prepend (trace (m rs)) (handler (rest (m rs)))
        else Outcome (Raise e) (rest (m rs)) (trace (m rs))
    | Blocked => Outcome Blocked (rest (m rs)) (trace (m rs))
    | Diverge => Outcome Diverge (rest (m rs)) (trace (m rs))
    end.
Proof.
  unfold guard, try_except, bind.
  destruct (m rs) as [[a|e| |] rs' t]; simpl; try done.
  destruct (k a rs') as [[x|e| |] rs'' t']; simpl; try done.
  destruct (is_KeyboardInterrupt e); [|done].
  unfold prepend; simpl. by rewrite app_assoc.
Qed.

Lemma turn_blocked :
  menu_turn [] = Outcome Blocked [] [Awaits (Call (console_input menu_prompt))].
Proof. reflexivity. Qed.

Lemma turn_raises e rs :
  menu_turn (Raises e :: rs)
  = if is_KeyboardInterrupt e
    then prepend [Did (Call (console_input menu_prompt)) (Raises e)] (handler rs)
    else Outcome (Raise e) rs [Did (Call (console_input menu_prompt)) (Raises e)].
Proof. unfold menu_turn. rewrite guarding_bind, asking_raises. done. Qed.

Lemma turn_not_str v rs :
  (∀ s, v ≠ VStr s) →
  menu_turn (Returns v :: rs)
  = Outcome (Raise AttributeError) rs
      [Did (Call (console_input menu_prompt)) (Returns v)].
Proof. intros H. unfold menu_turn. by rewrite guarding_bind, asking_not_str. Qed.

Lemma turn_accept typed c rs :
  menu_choice typed = Some c →
  menu_turn (line typed :: rs)
  = prepend [Did (Call (console_input menu_prompt)) (line typed)]
      (guard (match_user_input c) rs).
Proof.
  intros H. unfold menu_turn.
  by rewrite guarding_bind, (asking_accept _ _ _ _ typed c) by done.
Qed.

Lemma turn_reject typed rs :
  menu_choice typed = None →
  menu_turn (line typed :: rs)
  = match rs with
    | [] =>
        Outcome Blocked []
          [Did (Call (console_input menu_prompt)) (line typed);
           Awaits (Print (console_print illegal_choice_message None))]
    | Returns v :: rs' =>
        prepend
          [Did (Call (console_input menu_prompt)) (line typed);
           Did (Print (console_print illegal_choice_message None)) (Returns v)]
          (menu_turn rs')
    | Raises e :: rs' =>
        if is_KeyboardInterrupt e
        then prepend
               [Did (Call (console_input menu_prompt)) (line typed);
                Did (Print (console_print illegal_choice_message None)) (Raises e)]
               (handler rs')
        else Outcome (Raise e) rs'
               [Did (Call (console_input menu_prompt)) (line typed);
                Did (Print (console_print illegal_choice_message None)) (Raises e)]
    end.
Proof.
  intros H. unfold menu_turn.
  rewrite (guarding_bind _ _ (line typed :: rs)), asking_reject by done.
  destruct rs as [|[v|e] rs']; [done| |done].
  rewrite (guarding_bind _ _ rs').
  destruct (Prompt_ask menu_prompt (Some commands) false (Some "h") rs')
    as [[a|e| |] rs'' t]; unfold prepend; simpl; try done.
  destruct (is_KeyboardInterrupt e); done.
Qed.

(** ** The invariant of a turn *)

Lemma last_says_goodbye t s :
  last t = Some s → says_goodbye s = true → existsb says_goodbye t = true.
Proof.
  intros [t0 ->]%last_Some Hs. rewrite existsb_app. simpl. rewrite Hs.
  by rewrite orb_true_r.
Qed.

Lemma snoc_says_goodbye t0 s t :
  t = t0 ++ [s] → says_goodbye s = true → existsb says_goodbye t = true.
Proof. intros -> Hs. apply (last_says_goodbye _ s); [apply last_snoc|done]. Qed.

Lemma says_goodbye_goodbye r : says_goodbye (Did (Print goodbye) r) = true.
Proof. reflexivity. Qed.

Lemma says_goodbye_awaited : says_goodbye (Awaits (Print goodbye)) = true.
Proof. reflexivity. Qed.

Lemma handler_run rs :
  handler rs
  = match rs with
    | [] => Outcome Blocked [] [Awaits (Print goodbye)]
    | Returns v :: rs' =>
        Outcome (Ok (Some (Return (VBool false)))) rs'
          [Did (Print goodbye) (Returns v)]
    | Raises e :: rs' => Outcome (Raise e) rs' [Did (Print goodbye) (Raises e)]
    end.
Proof. by destruct rs as [|[v|e] rs]. Qed.

(** The handler closes a turn in which an interrupt was raised. *)
Lemma handler_turn t rs :
  interrupted t = true → turn_inv (prepend t (handler rs)).
Proof.
  intros Ht. rewrite handler_run. unfold turn_inv, prepend.
  destruct rs as [|[v|e] rs]; cbn [res rest trace].
  - rewrite last_snoc. split_and!; try done.
    + split; [done|]. by intros [? [=]].
    + intros _. right. by right.
    + split; [done|]. intros (t0 & [_ [=]]%app_inj_tail & _).
  - rewrite last_snoc. split_and!; try done.
    + split; [by exists v|done].
    + intros _. right. unfold interrupted in *. rewrite existsb_app, Ht. done.
    + intros _. by left.
    + split; [done|]. intros (t0 & [_ [=]]%app_inj_tail & _).
    + intros x [= <-]. by right.
  - rewrite last_snoc. split_and!; try done.
    + split; [done|]. by intros [? [=]].
    + intros _. right. left. by exists e.
    + split.
      * intros [= ->]. by exists t.
      * intros (t0 & [_ [= ->]]%app_inj_tail & _). done.
Qed.

(** Steps ahead of a turn that neither interrupt, select q nor print the
    goodbye message leave the invariant as it is. *)
Lemma turn_inv_prepend p o :
  interrupted p = false → selected "q" p = false →
  existsb says_goodbye p = false →
  turn_inv o → turn_inv (prepend p o).
Proof.
  intros Hi Hs Hg (H1 & H2 & H3 & H4 & H5 & H6).
  unfold turn_inv, prepend. cbn [res rest trace].
  unfold interrupted, selected in *.
  rewrite !existsb_app, Hi, Hs. cbn [orb].
  assert (∀ s, says_goodbye s = true → last (p ++ trace o) = Some s →
               last (trace o) = Some s) as Hlast.
  { intros s Hsg. rewrite last_app. destruct (last (trace o)); [done|].
    intros Hp. pose proof (last_says_goodbye _ _ Hp Hsg). congruence. }
  split_and!; try done.
  - rewrite H1. split; intros [v Hv]; exists v.
    + rewrite last_app. by rewrite Hv.
    + by apply Hlast.
  - intros H. destruct (H3 H) as [?|[(e & ? & He)|[? He]]]; [by left|right..].
    + left. exists e. split; [done|]. rewrite last_app. by rewrite He.
    + right. split; [done|]. rewrite last_app. by rewrite He.
  - rewrite H4. split.
    + intros (t0 & -> & Ht0). exists (p ++ t0).
      rewrite existsb_app, Hi. split; [by rewrite app_assoc|done].
    + intros (t0 & Heq & Ht0).
      assert (last (trace o)
              = Some (Did (Print goodbye) (Raises KeyboardInterrupt))) as Hl.
      { apply Hlast; [done|]. rewrite Heq. apply last_snoc. }
      apply last_Some in Hl as [t1 Hl]. exists t1. split; [done|].
      rewrite Hl, app_assoc in Heq. apply app_inj_tail in Heq as [<- _].
      rewrite existsb_app, Hi in Ht0. done.
Qed.

(** A quiet command under the handler. *)
Lemma guard_quiet_turn m rs :
  quiet m → breaks m → turn_inv (guard m rs).
Proof.
  intros Hq Hb. pose proof (steps_not_interrupted m rs Hq) as Hni.
  destruct (Hq rs) as (Hi & Hs & Hg & Hd). specialize (Hb rs).
  unfold guard, try_except.
  assert (∀ s, says_goodbye s = true → last (trace (m rs)) ≠ Some s) as Hlast.
  { intros s Hsg Hl. pose proof (last_says_goodbye _ _ Hl Hsg). congruence. }
  assert (∀ r t0, trace (m rs) ≠ t0 ++ [Did (Print goodbye) r]) as Hsnoc.
  { intros r t0 Heq. apply (Hlast (Did (Print goodbye) r)); [done|].
    rewrite Heq. apply last_snoc. }
  destruct (res (m rs)) as [x|e| |] eqn:Hres; [| | |done].
  - unfold turn_inv. rewrite Hres, Hs, Hni by done.
    rewrite (Hb x) by done. split_and!; try done.
    + split; [done|]. intros [v Hv]. by apply Hlast in Hv.
    + by intros [|].
    + split; [done|]. intros (t0 & Heq & _). by destruct (Hsnoc _ _ Heq).
    + intros ? [= <-]. by left.
  - destruct (is_KeyboardInterrupt e) eqn:He.
    + destruct e; try done. apply handler_turn. by apply Hi.
    + unfold turn_inv. rewrite Hres, Hs, Hni by (by destruct e).
      split_and!; try done.
      * split; [done|]. intros [v Hv]. by apply Hlast in Hv.
      * by intros [|].
      * split; [by intros [= ->]|].
        intros (t0 & Heq & _). by destruct (Hsnoc _ _ Heq).
  - unfold turn_inv. rewrite Hres, Hs, Hni by done. split_and!; try done.
    + split; [done|]. intros [v Hv]. by apply Hlast in Hv.
    + by intros [|].
    + split; [done|]. intros (t0 & Heq & _). by destruct (Hsnoc _ _ Heq).
Qed.

(** Command q: the goodbye message of line 102 is inside the [try]; an
    interrupt while it is printed is handled like any other. *)
Lemma q_turn p rs :
  selected "q" p = true → interrupted p = false →
  turn_inv (prepend p (guard (match_user_input "q") rs)).
Proof.
  intros Hs Hi.
  destruct rs as [|[v|e] rs].
  - unfold turn_inv, prepend. cbn [res rest trace app]. 
    change (trace (guard (match_user_input "q") []))
      with [Awaits (Print goodbye)].
    change (res (guard (match_user_input "q") [])) with (@Blocked (option exit)).
    rewrite last_snoc. split_and!; try done.
    + split; [done|]. by intros [? [=]].
    + intros _. right. by right.
    + split; [done|]. intros (t0 & [_ [=]]%app_inj_tail & _).
  - unfold turn_inv, prepend. cbn [res rest trace app].
    change (trace (guard (match_user_input "q") (Returns v :: rs)))
      with [Did (Print goodbye) (Returns v)].
    change (res (guard (match_user_input "q") (Returns v :: rs)))
      with (Ok (Some (Return (VBool false)))).
    rewrite last_snoc. split_and!; try done.
    + split; [by exists v|done].
    + intros _. left. unfold selected in *. rewrite existsb_app, Hs. done.
    + intros _. by left.
    + split; [done|]. intros (t0 & [_ [=]]%app_inj_tail & _).
    + intros x [= <-]. by right.
  - destruct (is_KeyboardInterrupt e) eqn:He.
    + destruct e; try done.
      change (guard (match_user_input "q") (Raises KeyboardInterrupt :: rs))
        with (prepend [Did (Print goodbye) (Raises KeyboardInterrupt)]
                (handler rs)).
      rewrite steps_prepend_prepend. apply handler_turn.
      unfold interrupted. rewrite existsb_app. simpl. by rewrite orb_true_r.
    + unfold turn_inv, prepend. cbn [res rest trace app].
      assert (guard (match_user_input "q") (Raises e :: rs)
              = Outcome (Raise e) rs [Did (Print goodbye) (Raises e)]) as ->.
      { by destruct e. }
      cbn [res rest trace]. rewrite last_snoc. split_and!; try done.
      * split; [done|]. by intros [? [=]].
      * intros _. right. left. by exists e.
      * split; [by intros [= ->]|].
        intros (t0 & [_ [= ->]]%app_inj_tail & _). done.
Qed.

Lemma live_menu_turn_inv rs : turn_inv (menu_turn rs).
Proof.
  remember (length rs) as n eqn:Hn. revert rs Hn.
  induction n as [n IH] using lt_wf_ind. intros rs ->.
  destruct rs as [|[v|e] rs].
  - rewrite turn_blocked. unfold turn_inv. cbn [res trace last].
    split_and!; try done.
    + split; [done|]. by intros [? [=]].
    + by intros [|].
    + split; [done|]. intros (t0 & Heq & _). by destruct t0 as [|? [|]].
  - destruct v as [| |typed| |];
      try (rewrite turn_not_str by done; unfold turn_inv; cbn [res trace last];
           split_and!; try done;
           [split; [done|]; by intros [? [=]]
           |by intros [|]
           |split; [done|]; intros (t0 & Heq & _); by destruct t0 as [|? [|]]]).
    fold (line typed). destruct (menu_choice typed) as [c|] eqn:Hc.
    + rewrite (turn_accept _ c) by done.
      destruct (menu_choice_cases _ _ Hc) as [->|[->|[->|[->| ->]]]];
        [| | | |apply q_turn; [|done];
                unfold selected; simpl; by rewrite Hc, bool_decide_true];
        (apply turn_inv_prepend; try done;
         [unfold selected; simpl; rewrite Hc; by rewrite bool_decide_false
         |edestruct commands_run_quietly as [Hq Hb];
           [|by apply guard_quiet_turn]; auto]).
    + rewrite turn_reject by done.
      destruct rs as [|[v|e] rs].
      * unfold turn_inv. cbn [res trace last]. split_and!; try done.
        -- split; [done|]. by intros [? [=]].
        -- unfold selected; simpl. rewrite Hc. by intros [|].
        -- split; [done|]. intros (t0 & Heq & _).
           by destruct t0 as [|? [|? [|]]].
      * apply turn_inv_prepend; try done.
        -- unfold selected; simpl. by rewrite Hc.
        -- apply (IH (length rs)); [simpl; lia|done].
      * destruct (is_KeyboardInterrupt e) eqn:He.
        -- destruct e; try done. by apply handler_turn.
        -- unfold turn_inv. cbn [res trace last]. split_and!; try done.
           ++ split; [done|]. by intros [? [=]].
           ++ unfold selected, interrupted; simpl. rewrite Hc.
              destruct e; try done; by intros [|].
           ++ split; [by intros [= ->]|]. intros (t0 & Heq & _).
              destruct t0 as [|? [|? [|]]]; try done.
  - rewrite turn_raises. destruct (is_KeyboardInterrupt e) eqn:He.
    + destruct e; try done. by apply handler_turn.
    + unfold turn_inv. cbn [res trace last]. split_and!; try done.
      * split; [done|]. by intros [? [=]].
      * unfold interrupted; simpl. destruct e; try done; by intros [|].
      * split; [by intros [= ->]|]. intros (t0 & Heq & _).
        by destruct t0 as [|? [|]].
Qed.

(** ** The loop and the whole of [menu_screen] *)

Lemma looping_finish rs : menu_loop rs = finish (menu_turn rs).
Proof.
  destruct (live_menu_turn_inv rs) as (_ & _ & _ & _ & H & _).
  unfold menu_loop, bind, while_True. rewrite loop_fuel_S. unfold finish.
  destruct (menu_turn rs) as [[[[|v]|]|e| |] rs' t]; simpl in *; try done.
  - unfold prepend, ret; simpl. by rewrite app_nil_r.
  - unfold prepend, ret; simpl. by rewrite app_nil_r.
  - by destruct (H None eq_refl).
Qed.

Lemma finish_prepended t o : finish (prepend t o) = prepend t (finish o).
Proof. done. Qed.

Lemma screen_run welcome api printed rs :
  menu_screen (prelude_replies welcome api printed ++ rs)
  = prepend (prelude welcome api printed) (finish (menu_turn rs)).
Proof.
  unfold menu_screen, bind, prelude, prelude_replies, do_call, emit, perform.
  cbn [app res rest trace].
  destruct (is_None api); cbn [app res rest trace bind];
    rewrite looping_finish; unfold prepend; simpl; done.
Qed.

Lemma prelude_is_clean welcome api printed :
  interrupted (prelude welcome api printed) = false
  ∧ selected "q" (prelude welcome api printed) = false
  ∧ existsb says_goodbye (prelude welcome api printed) = false.
Proof.
  unfold prelude. destruct (is_None api); split_and!; try done;
    unfold selected; simpl; by destruct welcome, api.
Qed.

Lemma last_interrupts t s :
  last t = Some s → interrupts s = true → interrupted t = true.
Proof.
  intros [t0 ->]%last_Some Hs. unfold interrupted. rewrite existsb_app. simpl.
  rewrite Hs. by rewrite orb_true_r.
Qed.

(** Inside the loop, an interrupt escapes with the goodbye message of the
    handler and in no other way. *)
Lemma interrupt_in_the_loop welcome api printed rs :
  let o := menu_screen (prelude_replies welcome api printed ++ rs) in
  (res o = Raise KeyboardInterrupt
   → ∃ t0, trace o = t0 ++ [Did (Print goodbye) (Raises KeyboardInterrupt)]
           ∧ interrupted t0 = true)
  ∧ (∀ a, last (trace o) = Some (Did a (Raises KeyboardInterrupt)) →
          interrupts (Did a (Raises KeyboardInterrupt)) = true →
          res o = Raise KeyboardInterrupt ∧ a = Print goodbye).
Proof.
  intros o. subst o. rewrite screen_run.
  destruct (prelude_is_clean welcome api printed) as (Hi & Hs & Hg).
  destruct (turn_inv_prepend _ _ Hi Hs Hg (live_menu_turn_inv rs))
    as (H1 & H2 & H3 & H4 & H5 & H6).
  unfold prepend, finish in *. cbn [res rest trace] in *. split.
  - intros H. apply H4.
    by destruct (res (menu_turn rs)) as [[[|v]|]|e| |]; try done;
      injection H as ->.
  - intros a Hl Ha. pose proof (last_interrupts _ _ Hl Ha) as Hint.
    destruct (H3 (or_intror Hint)) as [Hr|[(e & Hr & Hl')|[_ Hl']]].
    + apply H1 in Hr as [v Hv]. congruence.
    + rewrite Hl in Hl'. injection Hl' as -> <-. by rewrite Hr.
    + congruence.
Qed.


(** ** Where exceptions come from *)

Lemma steps_blameless_prepend {A} t (o : outcome A) :
  blameless o → blameless (prepend t o).
Proof.
  intros Ho e He. destruct (Ho e He) as [(t0 & a & Ht)|Hc]; [left|by right].
  exists (t ++ t0), a. unfold prepend; cbn [trace]. by rewrite Ht, app_assoc.
Qed.

Lemma steps_guiltless_ret {A} (a : A) : guiltless (ret a).
Proof. by intros rs e. Qed.

Lemma steps_guiltless_raise {A} e : code_raised e → guiltless (@raise A e).
Proof. intros He rs e' [= <-]. by right. Qed.

Lemma steps_guiltless_perform a : guiltless (perform a).
Proof.
  intros [|[v|e] rs] e'; simpl; try done. intros [= <-]. left. by exists [], a.
Qed.

Lemma steps_guiltless_bind {A B} (m : M A) (k : A → M B) :
  guiltless m → (∀ a, guiltless (k a)) → guiltless (bind m k).
Proof.
  intros Hm Hk rs. specialize (Hm rs). unfold bind.
  destruct (m rs) as [[a|e| |] rs' t]; cbn [res rest trace].
  - apply steps_blameless_prepend, Hk.
  - intros e' [= <-]. apply (Hm e eq_refl).
  - by intros e'.
  - by intros e'.
Qed.

Lemma steps_guiltless_try {A} (body handler : M A) exc :
  guiltless body → guiltless handler → guiltless (try_except body exc handler).
Proof.
  intros Hb Hh rs. specialize (Hb rs). unfold try_except.
  destruct (res (body rs)) as [a|e| |] eqn:Hres; try done.
  destruct (exc e); [|done]. apply steps_blameless_prepend, Hh.
Qed.

Lemma steps_guiltless_while {R} (body : M (option R)) :
  guiltless body → guiltless (while_True body).
Proof.
  intros Hb rs. unfold while_True. generalize (S (length rs)) as n.
  intros n. revert rs. induction n as [|n IH]; intros rs; [done|].
  rewrite loop_fuel_S. specialize (Hb rs).
  destruct (body rs) as [[[r|]|e| |] rs' t]; cbn [res rest trace] in *;
    try done.
  - apply steps_blameless_prepend, IH.
  - intros e' [= <-]. apply (Hb e eq_refl).
Qed.

Lemma steps_guiltless_unpack3 v : guiltless (unpack3 v).
Proof.
  unfold unpack3. destruct (iter_items v) as [[|a [|b [|c [|]]]]|];
    first [apply steps_guiltless_ret
          | apply steps_guiltless_raise; unfold code_raised; auto].
Qed.

Lemma steps_guiltless_unpack4 v : guiltless (unpack4 v).
Proof.
  unfold unpack4. destruct (iter_items v) as [[|a [|b [|c [|d [|]]]]]|];
    first [apply steps_guiltless_ret
          | apply steps_guiltless_raise; unfold code_raised; auto].
Qed.

#[local] Hint Resolve steps_guiltless_ret steps_guiltless_perform
  steps_guiltless_unpack3 steps_guiltless_unpack4 : live.
#[local] Hint Extern 2 (guiltless (bind _ _)) =>
  apply steps_guiltless_bind; [|intros] : live.
#[local] Hint Extern 2 (guiltless (try_except _ _ _)) =>
  apply steps_guiltless_try : live.
#[local] Hint Extern 2 (guiltless (while_True _)) =>
  apply steps_guiltless_while : live.
#[local] Hint Extern 3 (guiltless (if ?b then _ else _)) => destruct b : live.
#[local] Hint Extern 3 (guiltless (let '(_, _) := ?x in _)) => destruct x : live.

Lemma steps_guiltless_Prompt_ask p ch cs d : guiltless (Prompt_ask p ch cs d).
Proof.
  unfold Prompt_ask, ask_turn, do_call, emit.
  apply steps_guiltless_while, steps_guiltless_bind; [auto with live|].
  intros v. destruct v;
    try (apply steps_guiltless_raise; unfold code_raised; auto).
  destruct (accept ch cs d s); auto 10 with live.
Qed.

#[local] Hint Resolve steps_guiltless_Prompt_ask : live.

Lemma steps_guiltless_match_user_input c : guiltless (match_user_input c).
Proof.
  unfold match_user_input, help_screen, discovery_scan, view_exposure_loop,
    full_scan, do_call, emit.
  auto 30 with live.
Qed.

Lemma steps_guiltless_menu_screen : guiltless menu_screen.
Proof.
  unfold menu_screen, menu_loop, menu_turn, guard, handler, do_call, emit.
  apply steps_guiltless_bind; [auto with live|intros _].
  apply steps_guiltless_bind; [auto with live|intros api].
  apply steps_guiltless_bind; [auto 10 with live|intros _].
  apply steps_guiltless_bind.
  - apply steps_guiltless_while, steps_guiltless_try; [|auto 10 with live].
    apply steps_guiltless_bind; [auto with live|intros c].
    apply steps_guiltless_match_user_input.
  - intros [|v]; auto with live.
Qed.

End InterruptsFacts.

(* ------------------------------------------------------------------ *)
(** * The claims about exceptions and interrupts *)

(** C6, as the code has it.  In a session without SHODAN API key
    ([utils.get_shodan_api()] is [None]) the missing key raises nothing:
    the warning is printed, the menu prompt is asked, every one of the five
    commands is accepted, and the accepted command is served exactly as in
    the same session with a key.  Whatever such a session raises, output
    being interruptible too, was raised by its last step, a call or an
    output, or by the menu on a reply it cannot use. *)
Theorem missing_api_key_only_warns welcome key bad typed c rs :
  Forall (λ l, menu_choice l = None) bad →
  menu_choice typed = Some c →
  let script := (line <$> bad) ++ line typed :: rs in
  let absent := menu_screen (Returns welcome :: Returns VNone :: script) in
  let present := menu_screen (Returns welcome :: Returns (VStr key) :: script) in
  let served := finish (guard (match_user_input c) rs) in
  absent
  = prepend
      ([Ext ui_show_welcome_screen (Returns welcome);
        Ext utils_get_shodan_api (Returns VNone);
        Out (console_print api_key_warning None)]
       ++ reprompts bad ++ [Ext (console_input menu_prompt) (line typed)])
      served
  ∧ present
    = prepend
        ([Ext ui_show_welcome_screen (Returns welcome);
          Ext utils_get_shodan_api (Returns (VStr key))]
         ++ reprompts bad ++ [Ext (console_input menu_prompt) (line typed)])
        served
  ∧ (∀ x, x ∈ ["d"; "f"; "v"; "h"; "q"] → menu_choice x = Some x)
  ∧ (∀ rs', ∃ t,
       trace (menu_screen (Returns welcome :: Returns VNone :: rs'))
       = [Ext ui_show_welcome_screen (Returns welcome);
          Ext utils_get_shodan_api (Returns VNone);
          Out (console_print api_key_warning None);
          first_call (console_input menu_prompt) rs'] ++ t)
  ∧ (∀ rs' e,
       let o := Interrupts.menu_screen
                  (Returns welcome :: Returns VNone :: rs') in
       Interrupts.res o = Raise e →
       (∃ t a, Interrupts.trace o = t ++ [Interrupts.Did a (Raises e)])
       ∨ e = AttributeError ∨ e = TypeError ∨ e = ValueError).
Proof.
  intros Hbad Hc. cbv zeta.
  rewrite !(menu_screen_accept _ _ _ _ c) by done. split_and!.
  - reflexivity.
  - reflexivity.
  - intros x Hx. apply menu_choice_verbatim. unfold commands.
    rewrite !elem_of_cons, elem_of_nil in *.
    destruct Hx as [->|[->|[->|[->|[->|[]]]]]]; auto 10.
  - intros rs'. rewrite menu_screen_run, trace_prepend. cbn [finish trace].
    destruct (menu_turn_trace rs') as [t ->]. by exists t.
  - intros rs' e. apply InterruptsFacts.steps_guiltless_menu_screen.
Qed.

Lemma missing_api_key_only_warns_witness :
  menu_screen [Returns VNone; Returns VNone; line "?"; line "Q"; line "d"]
  = Outcome (Ok (VBool false)) [line "d"]
      [Ext ui_show_welcome_screen (Returns VNone);
       Ext utils_get_shodan_api (Returns VNone);
       Out (console_print api_key_warning None);
       Ext (console_input menu_prompt) (line "?");
       Out (console_print illegal_choice_message None);
       Ext (console_input menu_prompt) (line "Q");
       Out goodbye].
Proof.
  destruct (missing_api_key_only_warns VNone "key" ["?"] "Q" "q" [line "d"])
    as [H _].
  - repeat constructor.
  - reflexivity.
  - refine (eq_trans H _). reflexivity.
Defined.

(** C6, as stated, fails: a session without key raises a hard error when a
    collaborator does, here [scan.discovery]. *)
Lemma session_without_key_can_raise :
  let o := menu_screen
             [Returns VNone; Returns VNone; line "d";
              Returns (VTuple [VStr "example.com"; VList []; VBool true]);
              Raises (OtherError "APIError")] in
  res o = Raise (OtherError "APIError")
  ∧ trace o
    = [Ext ui_show_welcome_screen (Returns VNone);
       Ext utils_get_shodan_api (Returns VNone);
       Out (console_print api_key_warning None);
       Ext (console_input menu_prompt) (line "d");
       Ext ui_discovery_scan_menu
         (Returns (VTuple [VStr "example.com"; VList []; VBool true]));
       Out console_clear;
       Ext (scan_discovery
              [("domain", VStr "example.com"); ("country_codes", VList []);
               ("save", VBool true)]) (Raises (OtherError "APIError"))].
Proof. vm_compute. by split. Qed.

Import Interrupts InterruptsFacts.


(** C8, as the code has it, with terminal output interruptible too.  Once
    the menu loop is entered (the two calls before it returned, and the
    warning was written when there is no key), [menu_screen] returns
    [False] exactly when q was selected or a [KeyboardInterrupt] was raised
    in the loop, by a call other than the prompt of the help screen or by
    an output, and the goodbye message was then written; after q or such
    an interrupt the goodbye message is the last step, and when it is not
    written [menu_screen] ends as that output does; a [KeyboardInterrupt]
    leaves [menu_screen] exactly when the goodbye message of the handler
    raises it; [True] is returned only when neither q nor an interrupt
    occurred; whatever is returned is [False] or [True], and the loop does
    not diverge. *)
Theorem menu_screen_returns_False_iff welcome api printed rs :
  let o := Interrupts.menu_screen
             (Interrupts.prelude_replies welcome api printed ++ rs) in
  let t := Interrupts.trace o in
  (Interrupts.res o = Ok (VBool false)
   ↔ (Interrupts.selected "q" t = true ∨ Interrupts.interrupted t = true)
     ∧ ∃ v, last t = Some (Did (Print goodbye) (Returns v)))
  ∧ (Interrupts.selected "q" t = true ∨ Interrupts.interrupted t = true →
     Interrupts.res o = Ok (VBool false)
     ∨ (∃ e, Interrupts.res o = Raise e
             ∧ last t = Some (Did (Print goodbye) (Raises e)))
     ∨ (Interrupts.res o = Blocked ∧ last t = Some (Awaits (Print goodbye))))
  ∧ (Interrupts.res o = Raise KeyboardInterrupt
     ↔ ∃ t0, t = t0 ++ [Did (Print goodbye) (Raises KeyboardInterrupt)]
             ∧ Interrupts.interrupted t0 = true)
  ∧ (Interrupts.res o = Ok (VBool true) →
     Interrupts.selected "q" t = false ∧ Interrupts.interrupted t = false)
  ∧ (∀ v, Interrupts.res o = Ok v → v = VBool false ∨ v = VBool true)
  ∧ Interrupts.res o ≠ Diverge.
Proof.
  intros o t. subst o t. rewrite screen_run.
  destruct (prelude_is_clean welcome api printed) as (Hi & Hs & Hg).
  destruct (turn_inv_prepend _ _ Hi Hs Hg (live_menu_turn_inv rs))
    as (H1 & H2 & H3 & H4 & H5 & H6).
  unfold prepend, finish in *. cbn [res rest trace] in *.
  destruct (res (menu_turn rs)) as [[[|v]|]|e| |]; [| | | | |done].
  - split_and!; try done.
    + split; [done|]. by intros [_ H%H1].
    + intros H. by destruct (H3 H) as [|[(e & ? & _)|[? _]]].
    + split; [done|]. by intros H%H4.
    + intros _. split; apply not_true_is_false; intros E.
      * by destruct (H3 (or_introl E)) as [|[(e & ? & _)|[? _]]].
      * by destruct (H3 (or_intror E)) as [|[(e & ? & _)|[? _]]].
    + intros ? [= <-]. by right.
  - destruct (H5 _ eq_refl) as [|[= ->]]; [done|].
    split_and!; try done.
    + split; [intros _; split; [by apply H2|by apply H1]|done].
    + intros _. by left.
    + split; [done|]. by intros H%H4.
    + intros ? [= <-]. by left.
  - by destruct (H5 _ eq_refl).
  - split_and!; try done.
    + split; [done|]. by intros [_ H%H1].
    + intros H. destruct (H3 H) as [|[(e' & [= <-] & Hl)|[? _]]]; try done.
      right. left. by exists e.
    + rewrite <-H4. split; by intros [= ->].
  - split_and!; try done.
    + split; [done|]. by intros [_ H%H1].
    + intros H. destruct (H3 H) as [|[(e' & ? & _)|[_ Hl]]]; try done.
      right. by right.
    + split; [done|]. by intros H%H4.
Qed.

(** C8, as stated, fails: a [KeyboardInterrupt] raised inside the menu loop,
    at the prompt of the help screen, is caught by [help_screen];
    [menu_screen] then returns [True]. *)
Lemma interrupt_at_help_prompt_returns_True :
  let o := Interrupts.menu_screen
             [Returns VNone; Returns (VStr "key"); line "h";
              Returns VNone; Returns VNone; Raises KeyboardInterrupt] in
  Interrupts.res o = Ok (VBool true)
  ∧ Interrupts.trace o
    = [Did (Call ui_show_welcome_screen) (Returns VNone);
       Did (Call utils_get_shodan_api) (Returns (VStr "key"));
       Did (Call (console_input menu_prompt)) (line "h");
       Did (Print console_clear) (Returns VNone);
       Did (Print (console_print_Panel help_text "Help" "cyan bold" "left"))
         (Returns VNone);
       Did (Call (console_input help_prompt)) (Raises KeyboardInterrupt)].
Proof. vm_compute. by split. Qed.
(** X7.  A [KeyboardInterrupt] leaves [menu_screen] exactly when it is
    raised by a step outside the [try]: the call [ui.show_welcome_screen()],
    the call [utils.get_shodan_api()], the output of the warning, or the
    output of the goodbye message, which then is that of the handler, an
    interrupt having been raised before it. *)
Theorem interrupt_escapes_outside_the_try rs :
  let o := Interrupts.menu_screen rs in
  (Interrupts.res o = Raise KeyboardInterrupt
   ↔ ∃ a, last (Interrupts.trace o) = Some (Did a (Raises KeyboardInterrupt))
          ∧ (a = Call ui_show_welcome_screen
             ∨ a = Call utils_get_shodan_api
             ∨ a = Print (console_print api_key_warning None)
             ∨ a = Print goodbye))
  ∧ (∀ t0, Interrupts.trace o
           = t0 ++ [Did (Print goodbye) (Raises KeyboardInterrupt)] →
           Interrupts.interrupted t0 = true).
Proof.
  intros o. subst o.
  assert (∀ welcome api printed rs',
    let o := menu_screen (prelude_replies welcome api printed ++ rs') in
    (res o = Raise KeyboardInterrupt
     ↔ ∃ a, last (trace o) = Some (Did a (Raises KeyboardInterrupt))
            ∧ (a = Call ui_show_welcome_screen
               ∨ a = Call utils_get_shodan_api
               ∨ a = Print (console_print api_key_warning None)
               ∨ a = Print goodbye))
    ∧ (∀ t0, trace o = t0 ++ [Did (Print goodbye) (Raises KeyboardInterrupt)] →
             interrupted t0 = true)) as Hloop.
  { intros welcome api printed rs' o.
    destruct (interrupt_in_the_loop welcome api printed rs') as [Hout Hin].
    fold o in Hout, Hin. split; [split|].
    - intros (t0 & Ht & _)%Hout. exists (Print goodbye).
      split; [|auto]. rewrite Ht. apply last_snoc.
    - intros (a & Hl & Ha). apply (Hin a Hl).
      by destruct Ha as [->|[->|[->| ->]]].
    - intros t0 Ht.
      assert (last (trace o)
              = Some (Did (Print goodbye) (Raises KeyboardInterrupt))) as Hl.
      { rewrite Ht. apply last_snoc. }
      destruct (Hin _ Hl eq_refl) as [(t1 & Ht1 & Hi)%Hout _].
      rewrite Ht in Ht1. by apply app_inj_tail in Ht1 as [-> _]. }
  destruct rs as [|[welcome|e] rs].
  - split; [|by intros [|? [|]]]. split; [done|]. by intros (a & [=] & _).
  - destruct rs as [|[api|e] rs].
    + split; [|by intros [|? [|? [|]]]]. split; [done|]. by intros (a & [=] & _).
    + destruct (is_None api) eqn:Hapi.
      * destruct api; try done. destruct rs as [|[printed|e] rs].
        -- split; [|by intros [|? [|? [|? [|]]]]].
           split; [done|]. by intros (a & [=] & _).
        -- apply (Hloop welcome VNone printed rs).
        -- change (menu_screen (Returns welcome :: Returns VNone :: Raises e :: rs))
             with (Outcome (@Raise value e) rs
                     [Did (Call ui_show_welcome_screen) (Returns welcome);
                      Did (Call utils_get_shodan_api) (Returns VNone);
                      Did (Print (console_print api_key_warning None)) (Raises e)]).
           cbn [res trace last]. split; [|by intros [|? [|? [|? [|]]]]].
           split.
           ++ intros [= ->]. eexists. split; [done|]. auto.
           ++ by intros (a & [= _ ->] & _).
      * pose proof (Hloop welcome api VNone rs) as H.
        unfold prelude_replies in H. rewrite Hapi in H. apply H.
    + change (menu_screen (Returns welcome :: Raises e :: rs))
        with (Outcome (@Raise value e) rs
                [Did (Call ui_show_welcome_screen) (Returns welcome);
                 Did (Call utils_get_shodan_api) (Raises e)]).
      cbn [res trace last]. split; [|by intros [|? [|? [|]]]].
      split.
      * intros [= ->]. eexists. split; [done|]. auto.
      * by intros (a & [= _ ->] & _).
  - change (menu_screen (Raises e :: rs))
      with (Outcome (@Raise value e) rs
              [Did (Call ui_show_welcome_screen) (Raises e)]).
    cbn [res trace last]. split; [|by intros [|? [|]]].
    split.
    + intros [= ->]. eexists. split; [done|]. auto.
    + by intros (a & [= _ ->] & _).
Qed.
